(** * Exapunks solitaire solver: the game logic of [exa_logic.py]

    A shallow embedding of the classes [Stack] and [Game] and the proofs of
    the properties stated about them.

    Conventions of the embedding.
    - A Python [str] is a [string]; a card code is such a string.  The text
      handled by the program is ASCII, so one character is one [ascii].
    - A Python [int] is a [Z]; list lengths and indices are [nat].
    - A method that can raise returns a [result]; a method that mutates
      [self] returns the new value of the object.
    - The attribute [Stack.stack] holds either a list of cards or the
      string ["X"]: the type [contents]. *)

From Stdlib Require Import ZArith Lia Ascii String.
From stdpp Require Import base list strings sorting pretty.

Local Open Scope Z_scope.
Local Open Scope string_scope.
Local Open Scope list_scope.

(** ** Exceptions *)

Inductive exn : Type :=
  | ValueError
  | IndexError
  | TypeError
  | Failure (msg : string).   (* [raise Exception(msg)] *)

Inductive result (A : Type) : Type :=
  | Ok (a : A)
  | Raise (e : exn).
Arguments Ok {A} a.
Arguments Raise {A} e.

Global Instance exn_eq_dec : EqDecision exn.
Proof. solve_decision. Defined.

Global Instance result_eq_dec {A : Type} `{EqDecision A} : EqDecision (result A).
Proof. solve_decision. Defined.

Definition bind {A B : Type} (m : result A) (f : A -> result B) : result B :=
  match m with Ok a => f a | Raise e => Raise e end.

Notation "x <- m ;; k" := (bind m (fun x => k))
  (at level 100, m at next level, right associativity).

Definition raises {A} (m : result A) : Prop := ∃ e, m = Raise e.

(** ** Python sequences *)

(** The value of [Stack.stack]: a list of card codes, or the string ["X"]. *)
Inductive contents : Type :=
  | Cards (l : list string)
  | X.

Global Instance contents_eq_dec : EqDecision contents.
Proof. solve_decision. Defined.

(** [len(v)]; the string ["X"] has length 1. *)
Definition py_len (v : contents) : nat :=
  match v with Cards l => length l | X => 1%nat end.

(** Truth value of a sequence: non-empty. *)
Definition py_truthy (v : contents) : bool :=
  match v with Cards [] => false | _ => true end.

(** [v[0]]: the first item; the first item of ["X"] is ["X"]. *)
Definition py_first (v : contents) : result string :=
  match v with
  | Cards [] => Raise IndexError
  | Cards (c :: _) => Ok c
  | X => Ok "X"
  end.

(** [v[-1]]: the last item. *)
Definition py_last (v : contents) : result string :=
  match v with
  | Cards l => match last l with Some c => Ok c | None => Raise IndexError end
  | X => Ok "X"
  end.

(** [l[-m:]] for [m > 0]: the last [m] items, all of them when [m] exceeds
    the length. *)
Definition py_suffix (m : nat) (v : contents) : contents :=
  match v with
  | Cards l => Cards (drop (length l - m) l)
  | X => X
  end.

(** [a, b = list(c)]: the two characters of a card code. *)
Definition unpack2 (c : string) : result (ascii * ascii) :=
  match c with
  | String a (String b EmptyString) => Ok (a, b)
  | _ => Raise ValueError
  end.

(** [int(c)] for a one-character string holding a decimal digit. *)
Definition int_of_digit (c : ascii) : Z := Z.of_N (N_of_ascii c) - 48.

(** ** Class [Stack] *)

Module Stack.

Inductive kind : Type :=
  | stack_kind       (* card_type == "stack" *)
  | freecell_kind.   (* card_type == "freecell" *)

Global Instance kind_eq_dec : EqDecision kind.
Proof. solve_decision. Defined.

(** [past_cards]: the empty string at creation, a card code after a
    collapse, an [int] after [exact_setup]. *)
Inductive past : Type :=
  | PastStr (s : string)
  | PastInt (n : Z).

Global Instance past_eq_dec : EqDecision past.
Proof. solve_decision. Defined.

Record t : Type := mk {
  card_type : kind;
  locked : bool;
  stack : contents;
  past_cards : past;
}.

Global Instance t_eq_dec : EqDecision t.
Proof. solve_decision. Defined.

Definition face_values : list ascii := ["H"; "S"; "C"; "D"]%char.
Definition num_values : list ascii := ["6"; "7"; "8"; "9"]%char.
Definition face_cards : list string := ["HH"; "SS"; "CC"; "DD"].

(** [Stack(card_type, locked)] *)
Definition init (ty : kind) (lk : bool) : t :=
  mk ty lk (Cards []) (PastStr "").

(** [int(r) if r in num_values else 10] *)
Definition number_of (r : ascii) : Z :=
  if bool_decide (r ∈ num_values) then int_of_digit r else 10.

(** [compatible(top, bottom)]: can [bottom] be placed under [top]?  The
    source returns 1 or 0, used only as a truth value. *)
Definition compatible (top bottom : string) : result bool :=
  t <- unpack2 top ;;
  let '(top_str, top_suit) := t in
  b <- unpack2 bottom ;;
  let '(bottom_str, bottom_suit) := b in
  if bool_decide (top_suit = bottom_suit) && bool_decide (top_str ∈ face_values)
  then Ok true
  else if bool_decide (top_str ∈ face_values) || bool_decide (bottom_str ∈ face_values)
  then Ok false
  else
    let top_number := number_of top_str in
    let bottom_number := number_of bottom_str in
    if bool_decide (bottom_number = top_number - 1)
       && negb (bool_decide (top_suit = bottom_suit))
    then Ok true
    else Ok false.

(** [hash]: the type letter followed by the card codes, or by the marker
    ["X[" + str(past_cards) + "]"] for a collapsed stack. *)
Definition type_str (s : t) : string :=
  match card_type s with stack_kind => "S" | freecell_kind => "F" end.

Definition str_of_past (p : past) : string :=
  match p with PastStr s => s | PastInt n => pretty n end.

Definition hash (s : t) : string :=
  type_str s +:+
  match stack s with
  | Cards l => String.concat "" l
  | X => "X[" +:+ str_of_past (past_cards s) +:+ "]"
  end.

(** [init_cards(cards)] *)
Definition init_cards (s : t) (cards : list string) : result t :=
  if py_truthy (stack s)
  then Raise (Failure "Illegal init, cards already there")
  else if bool_decide (card_type s = freecell_kind)
  then Raise (Failure "Illegal init, can't init cards in free cell")
  else Ok (mk (card_type s) (locked s) (Cards cards) (past_cards s)).

(** [is_move_to_legal(card)]; [card] is the sequence of cards to move. *)
Definition is_move_to_legal (s : t) (card : contents) : result bool :=
  if locked s then Ok false
  else if bool_decide (card_type s = freecell_kind) && py_truthy (stack s)
  then Ok false
  else if bool_decide (card_type s = freecell_kind) && (1 <? py_len card)%nat
  then Ok false
  else if bool_decide (card_type s = stack_kind) && py_truthy (stack s)
  then
    top <- py_last (stack s) ;;
    bottom <- py_first card ;;
    ok <- compatible top bottom ;;
    Ok ok
  else Ok true.

(** [is_move_from_legal()] *)
Definition is_move_from_legal (s : t) : bool :=
  if locked s then false
  else if negb (py_truthy (stack s)) then false
  else true.

(** The loop of [which_cards_moving]: [below] holds the cards under the
    last card taken, nearest first; the result is what the loop appends to
    [card_move]. *)
Fixpoint take_below (below : list string) (taken : string) : result (list string) :=
  match below with
  | [] => Ok []
  | c :: rest =>
      ok <- compatible c taken ;;
      if ok then (more <- take_below rest c ;; Ok (c :: more)) else Ok []
  end.

(** [which_cards_moving()]: the run of cards at the top of the stack. *)
Definition which_cards_moving (s : t) : result (list string) :=
  match stack s with
  | X => Ok ["X"]
  | Cards l =>
      match reverse l with
      | [] => Raise IndexError
      | top :: below =>
          more <- take_below below top ;;
          Ok (reverse (top :: more))
      end
  end.

(** [resolve_move_from(max_stack)]: the stack after the move and the cards
    that leave.  [max_stack] is 0 or 1 at every call. *)
Definition resolve_move_from (s : t) (max_stack : nat) : result (t * contents) :=
  if negb (is_move_from_legal s)
  then Raise (Failure "Trying to force illegal move")
  else
    card_move <- (if bool_decide (max_stack = 0%nat)
                 then run <- which_cards_moving s ;; Ok (Cards run)
                 else Ok (py_suffix max_stack (stack s))) ;;
    let remaining_keep := (py_len (stack s) - py_len card_move)%nat in
    let kept :=
      if bool_decide (py_len card_move = py_len (stack s)) then Cards []
      else match stack s with
           | Cards l => Cards (take remaining_keep l)
           | X => X   (* not reached: the lengths are both 1 *)
           end in
    Ok (mk (card_type s) (locked s) kept (past_cards s), card_move).

(** The collapse test of [resolve_move_to] on the new contents. *)
Definition collapses (l : list string) : bool :=
  match l with
  | c :: _ =>
      bool_decide (length l = 4%nat) && bool_decide (l = replicate 4 c)
      && bool_decide (c ∈ face_cards)
  | [] => false
  end.

(** [resolve_move_to(card)] *)
Definition resolve_move_to (s : t) (card : contents) : result t :=
  legal <- is_move_to_legal s card ;;
  if negb legal then Raise (Failure "Trying to force illegal move")
  else
    match stack s, card with
    | Cards l, Cards run =>
        let l' := l ++ run in
        match l' with
        | c :: _ =>
            if collapses l'
            then Ok (mk (card_type s) true X (PastStr c))
            else Ok (mk (card_type s) (locked s) (Cards l') (past_cards s))
        | [] => Ok (mk (card_type s) (locked s) (Cards l') (past_cards s))
        end
    | Cards _, X => Raise TypeError   (* list + str *)
    | X, _ => Raise TypeError         (* not reached: the move is illegal *)
    end.

(** [is_complete()] *)
Definition is_complete (s : t) : bool :=
  match stack s with
  | X => true
  | Cards l =>
      bool_decide (l = ["0R"; "9B"; "8R"; "7B"; "6R"])
      || bool_decide (l = ["0B"; "9R"; "8B"; "7R"; "6B"])
  end.

End Stack.

(** ** Strings as Python handles them *)

(** The order of [str] values: lexicographic on the character codes. *)
Definition str_le (s1 s2 : string) : Prop := String.leb s1 s2 = true.

Global Instance str_le_dec : RelDecision str_le.
Proof. intros s1 s2. unfold str_le. apply _. Defined.

(** [s.split("/")]: the pieces between the separators, empty ones kept. *)
Fixpoint split_slash (s : string) : list string :=
  match s with
  | EmptyString => [""]
  | String c rest =>
      if bool_decide (c = "/"%char) then "" :: split_slash rest
      else match split_slash rest with
           | tok :: toks => String c tok :: toks
           | [] => [String c ""]
           end
  end.

(** [[s[i:i+2] for i in range(0, len(s), 2)]]: the string cut in pieces of
    two characters, the last one shorter when the length is odd. *)
Fixpoint pairs (s : string) : list string :=
  match s with
  | EmptyString => []
  | String a EmptyString => [String a ""]
  | String a (String b rest) => String a (String b "") :: pairs rest
  end.

(** White space as [int()] strips it from a [str] of ASCII characters:
    the characters 9 to 13 and the space. *)
Definition is_space (c : ascii) : bool :=
  let n := N_of_ascii c in
  ((9 <=? n) && (n <=? 13) || (n =? 32))%N.

Definition is_digit (c : ascii) : bool :=
  let n := N_of_ascii c in ((48 <=? n) && (n <=? 57))%N.

Fixpoint lstrip (l : list ascii) : list ascii :=
  match l with
  | c :: rest => if is_space c then lstrip rest else l
  | [] => []
  end.

Definition strip (l : list ascii) : list ascii :=
  reverse (lstrip (reverse (lstrip l))).

(** The digits of a decimal literal, single underscores allowed between
    digits; [sep] tells that a digit has to come next. *)
Fixpoint digits_value (acc : Z) (sep : bool) (l : list ascii) : option Z :=
  match l with
  | [] => if sep then None else Some acc
  | c :: rest =>
      if is_digit c then digits_value (10 * acc + int_of_digit c) false rest
      else if bool_decide (c = "_"%char)
      then (if sep then None else digits_value acc true rest)
      else None
  end.

(** [int(s)] for a [str] of ASCII characters. *)
Definition py_int (s : string) : result Z :=
  let body := strip (list_ascii_of_string s) in
  let parsed :=
    match body with
    | "-"%char :: ds => Z.opp <$> digits_value 0 true ds
    | "+"%char :: ds => digits_value 0 true ds
    | _ => digits_value 0 true body
    end in
  match parsed with Some n => Ok n | None => Raise ValueError end.

(** [mapM] for [result]: the first exception stops the iteration. *)
Fixpoint traverse {A B : Type} (f : A -> result B) (l : list A) : result (list B) :=
  match l with
  | [] => Ok []
  | a :: rest => b <- f a ;; bs <- traverse f rest ;; Ok (b :: bs)
  end.

(** A stable insertion sort on integer keys, smallest first: the order
    [sorted(..., key=...)] produces. *)
Fixpoint insert_by_key {A : Type} (key : A -> Z) (x : A) (l : list A) : list A :=
  match l with
  | [] => [x]
  | y :: rest => if (key x <=? key y)%Z then x :: l else y :: insert_by_key key x rest
  end.

Definition sorted_by_key {A : Type} (key : A -> Z) (l : list A) : list A :=
  foldr (insert_by_key key) [] l.

(** ** Class [Game] *)

Module Game.

Record t : Type := mk {
  stacks : list Stack.t;
  card_stacks : nat;
  depth : Z;
  max_depth : Z;
  move_history : list (nat * nat);
  score : Z;
}.

(** [Game(card_stacks, freecells, max_depth)] *)
Definition init (n_stacks n_free : nat) (cutoff : Z) : t :=
  mk (replicate n_stacks (Stack.init Stack.stack_kind false)
      ++ replicate n_free (Stack.init Stack.freecell_kind false))
     n_stacks 0 cutoff [] 0.

(** The deck: [face_cards] and [number_cards]. *)
Definition face_cards : list string :=
  mjoin (replicate 4 ["HH"; "SS"; "CC"; "DD"]).
Definition number_cards : list string :=
  mjoin (replicate 2 ["0B"; "0R"; "9B"; "9R"; "8B"; "8R"; "7B"; "7R"; "6B"; "6R"]).

Definition set_stacks (g : t) (ss : list Stack.t) : t :=
  mk ss (card_stacks g) (depth g) (max_depth g) (move_history g) (score g).

Definition set_score (g : t) (v : Z) : t :=
  mk (stacks g) (card_stacks g) (depth g) (max_depth g) (move_history g) v.

(** [stack_chunks] before the sort. *)
Definition stack_chunks (g : t) : list string :=
  map (fun s => Stack.hash s +:+ "/") (stacks g).

(** [hash()] *)
Definition hash (g : t) : string :=
  String.concat "" (merge_sort str_le (stack_chunks g)).

(** One turn of the loop of [exact_setup]: the stack a token stands for. *)
Definition decode_stack (tok : string) : result Stack.t :=
  let stack_type :=
    if bool_decide (String.get 0 tok = Some "S"%char)
    then Stack.stack_kind else Stack.freecell_kind in
  let body := String.substring 1 (String.length tok - 1) tok in
  if bool_decide (String.length tok = 1%nat)
  then Ok (Stack.mk stack_type false (Cards []) (Stack.PastStr ""))
  else if negb (String.prefix "X" body)
  then Ok (Stack.mk stack_type false (Cards (pairs body)) (Stack.PastStr ""))
  else
    past_card <- py_int (String.substring 3 2 tok) ;;
    Ok (Stack.mk stack_type true X
          (if (-1 <? past_card)%Z then Stack.PastInt past_card
           else Stack.PastStr "")).

(** [exact_setup(game_hash)] *)
Definition exact_setup (g : t) (game_hash : string) : result t :=
  let stack_hashes :=
    filter (fun x => String.length x ≠ 0%nat) (split_slash game_hash) in
  stack_set <- traverse decode_stack stack_hashes ;;
  Ok (set_stacks g stack_set).

(** [next((j + 1 for j in range(len - 2, -1, -1) if not compatible(...)), 0)]
    in [get_score]: [below] holds the cards under [upper], nearest first. *)
Fixpoint trapped_below (below : list string) (upper : string) : result Z :=
  match below with
  | [] => Ok 0
  | c :: rest =>
      ok <- Stack.compatible c upper ;;
      if ok then trapped_below rest c else Ok (Z.of_nat (length below))
  end.

Definition num_cards_trapped (l : list string) : result Z :=
  match reverse l with
  | [] => Ok 0
  | top :: below => trapped_below below top
  end.

(** One turn of the loop of [get_score]: the new value of [score]. *)
Definition score_step (score : Z) (i : Stack.t) : result Z :=
  if Stack.is_complete i then Ok (score + 20)
  else if bool_decide (Stack.card_type i = Stack.stack_kind)
          && negb (py_truthy (Stack.stack i))
  then Ok (score + 10)
  else if bool_decide (Stack.card_type i = Stack.stack_kind)
          && py_truthy (Stack.stack i)
  then
    match Stack.stack i with
    | Cards l =>
        if bool_decide (length l = 5%nat)
           && (bool_decide (l = ["0R"; "9B"; "8R"; "7B"; "6R"])
               || bool_decide (l = ["0B"; "9R"; "8B"; "7R"; "6B"]))
        then Ok 10
        else
          num_trapped <- num_cards_trapped l ;;
          Ok (score + 5 - num_trapped)
    | X => Ok score   (* not reached: a collapsed stack is complete *)
    end
  else Ok score.

Fixpoint score_loop (score : Z) (l : list Stack.t) : result Z :=
  match l with
  | [] => Ok score
  | i :: rest => score' <- score_step score i ;; score_loop score' rest
  end.

(** [get_score(override)]: the game with its cached score, and the score. *)
Definition get_score (g : t) (override : bool) : result (t * Z) :=
  if negb (score g =? 0)%Z && negb override then Ok (g, score g)
  else
    v <- score_loop 0 (stacks g) ;;
    Ok (set_score g v, v).

(** [is_complete()] *)
Definition is_complete (g : t) : bool :=
  let num_complete :=
    foldr Z.add 0 (map (fun s => Z.b2z (Stack.is_complete s)) (stacks g)) in
  (num_complete =? 8)%Z.

(** [self.stacks[i]] *)
Definition stack_at (g : t) (i : nat) : result Stack.t :=
  match stacks g !! i with Some s => Ok s | None => Raise IndexError end.

(** The body of the inner loop of [enumerate_moves] for destination [i] and
    origin [j]: does it append [(j, i)]? *)
Definition move_valid (g : t) (i j : nat) : result bool :=
  if bool_decide (j = i) then Ok false
  else if bool_decide (last (move_history g) = Some (i, j)) then Ok false
  else
    origin <- stack_at g j ;;
    if Stack.is_move_from_legal origin
    then
      dest <- stack_at g i ;;
      run <- Stack.which_cards_moving origin ;;
      bottom <- py_first (Cards run) ;;
      Stack.is_move_to_legal dest (Cards [bottom])
    else Ok false.

(** The inner loop: the moves to [i] from the origins [js], in order. *)
Fixpoint moves_to (g : t) (i : nat) (js : list nat) : result (list (nat * nat)) :=
  match js with
  | [] => Ok []
  | j :: rest =>
      ok <- move_valid g i j ;;
      more <- moves_to g i rest ;;
      Ok (if ok then (j, i) :: more else more)
  end.

(** The outer loop over the destinations [dests]. *)
Fixpoint moves_over (g : t) (dests : list nat) : result (list (nat * nat)) :=
  match dests with
  | [] => Ok []
  | i :: rest =>
      dest <- stack_at g i ;;
      row <- (if Stack.locked dest then Ok []
              else moves_to g i (seq 0 (length (stacks g)))) ;;
      more <- moves_over g rest ;;
      Ok (row ++ more)
  end.

(** [enumerate_moves()]: the pairs (origin, destination). *)
Definition enumerate_moves (g : t) : result (list (nat * nat)) :=
  moves_over g (seq 0 (length (stacks g))).

(** [is_dead()] *)
Definition is_dead (g : t) : result bool :=
  moves <- enumerate_moves g ;;
  Ok (bool_decide (length moves = 0%nat)).

Definition nth_stack (ss : list Stack.t) (i : nat) : result Stack.t :=
  match ss !! i with Some s => Ok s | None => Raise IndexError end.

(** The first half of a move [(i, j)], as [solve] and [play_game] make it:
    the cards leave stack [i], one card only when [j] is a free cell. *)
Definition take_cards (ss : list Stack.t) (i j : nat)
  : result (list Stack.t * contents) :=
  dest <- nth_stack ss j ;;
  origin <- nth_stack ss i ;;
  r <- Stack.resolve_move_from origin
         (if bool_decide (Stack.card_type dest = Stack.freecell_kind)
          then 1%nat else 0%nat) ;;
  Ok (<[i := r.1]> ss, r.2).

(** The second half: the cards go on stack [j]. *)
Definition put_cards (ss : list Stack.t) (j : nat) (cards_move : contents)
  : result (list Stack.t) :=
  dest <- nth_stack ss j ;;
  dest' <- Stack.resolve_move_to dest cards_move ;;
  Ok (<[j := dest']> ss).

Definition apply_move (ss : list Stack.t) (move : nat * nat)
  : result (list Stack.t) :=
  r <- take_cards ss move.1 move.2 ;;
  put_cards r.1 move.2 r.2.

(** The body of the loop of [solve]: the child for one move. *)
Definition child (g : t) (move : nat * nat) : result t :=
  ss <- apply_move (stacks g) move ;;
  let new_game :=
    mk ss (card_stacks g) (depth g + 1) (max_depth g)
       (move_history g ++ [move]) (score g) in
  scored <- get_score new_game true ;;
  Ok scored.1.

(** [solve()]: [None] is Python's [None]. *)
Definition solve (g : t) : result (option (list t)) :=
  if (max_depth g <? depth g)%Z then Ok None
  else if is_complete g then Raise (Failure "Trying to solve complete game.")
  else
    dead <- is_dead g ;;
    if dead && (0 <? depth g)%Z then Ok None
    else
      valid_moves <- enumerate_moves g ;;
      results <- traverse (child g) valid_moves ;;
      if bool_decide (depth g = 0) && bool_decide (results = [])
      then Raise (Failure "Impossible to solve game")
      else if bool_decide (results = []) then Ok None
      else Ok (Some results).

(** A move as [play_game] returns it:
    [(i, y_offset_pre, j, y_offset_post)]. *)
Definition fixed_move : Type := (nat * Z * nat * Z)%type.

(** The loop of [play_game] over the moves left. *)
Fixpoint play_moves (ss : list Stack.t) (moves : list (nat * nat))
  : result (list Stack.t * list fixed_move) :=
  match moves with
  | [] => Ok (ss, [])
  | (i, j) :: rest =>
      r <- take_cards ss i j ;;
      let '(ss1, cards_move) := r in
      origin <- nth_stack ss1 i ;;
      let y_offset_pre :=
        (Z.of_nat (py_len (Stack.stack origin)) - Z.of_nat (py_len cards_move))%Z in
      dest <- nth_stack ss1 j ;;
      let y_offset_post :=
        Z.max 0 (Z.of_nat (py_len (Stack.stack dest)) - 1) in
      ss2 <- put_cards ss1 j cards_move ;;
      more <- play_moves ss2 rest ;;
      Ok (more.1, (i, y_offset_pre, j, y_offset_post) :: more.2)
  end.

(** [play_game(moves, print_level)]: the stacks of the game after the
    replay and the moves with their offsets. *)
Definition play_game (g : t) (moves : list (nat * nat))
  : result (t * list fixed_move) :=
  if bool_decide (moves = [])
  then Raise (Failure "No moves for successful game solve?")
  else
    r <- play_moves (stacks g) moves ;;
    Ok (set_stacks g r.1, r.2).

(** The key of the sort in [global_solve]: [-k.get_score()], which also
    stores the score in [k]. *)
Definition keyed (k : t) : result (t * Z) :=
  r <- get_score k false ;;
  Ok (r.1, (- r.2)%Z).

(** The loop of [global_solve].  [self] is the game the search started
    from, [fuel] bounds the number of nodes taken from the queue; [None]
    when the bound is reached.  The counters kept for printing only are
    left out, and so is the score that printing may store in [self], which
    [play_game] does not read. *)
Fixpoint search (fuel : nat) (self : t) (print_level : Z)
    (nodes_to_visit : list t) (visited_nodes : list string)
  : option (result (list fixed_move)) :=
  match fuel with
  | O => None
  | S fuel' =>
      match nodes_to_visit with
      | [] => Some (Ok [])   (* "Game cannot be solved." *)
      | current :: queue =>
          if bool_decide (hash current ∈ visited_nodes)
          then search fuel' self print_level queue visited_nodes
          else
            match (if (0 <? print_level)%Z
                   then r <- get_score current false ;; Ok r.1
                   else Ok current) with
            | Raise e => Some (Raise e)
            | Ok current =>
                let visited_nodes := visited_nodes ++ [hash current] in
                if is_complete current
                then Some (r <- play_game self (move_history current) ;; Ok r.2)
                else
                  match solve current with
                  | Raise e => Some (Raise e)
                  | Ok None => search fuel' self print_level queue visited_nodes
                  | Ok (Some results) =>
                      match traverse keyed (queue ++ results) with
                      | Raise e => Some (Raise e)
                      | Ok ks =>
                          search fuel' self print_level
                            (map fst (sorted_by_key snd ks)) visited_nodes
                      end
                  end
            end
      end
  end.

(** [global_solve(print_level)] *)
Definition global_solve (fuel : nat) (g : t) (print_level : Z)
  : option (result (list fixed_move)) :=
  if (0 <? depth g)%Z
  then Some (Raise (Failure "Should only call this from top level."))
  else search fuel g print_level [g] [].

(** [cards] in [deal_cards] before the shuffle. *)
Definition deck : list string := face_cards ++ number_cards.

(** The loop of [deal_cards] over the indices [todo]:
    [self.stacks[i].init_cards(new_stacks[i])]. *)
Fixpoint deal_loop (ss : list Stack.t) (new_stacks : list (list string))
    (todo : list nat) : result (list Stack.t) :=
  match todo with
  | [] => Ok ss
  | i :: rest =>
      s <- nth_stack ss i ;;
      cards <- match new_stacks !! i with
               | Some c => Ok c | None => Raise IndexError end ;;
      s' <- Stack.init_cards s cards ;;
      deal_loop (<[i := s']> ss) new_stacks rest
  end.

(** [deal_cards()]; [shuffled] is the list [cards] as [random.shuffle]
    leaves it.  Each stack gets the slice [cards[i * 4 : i * 4 + 4]]. *)
Definition deal_cards (g : t) (shuffled : list string) : result t :=
  let new_stacks :=
    map (fun i => take 4 (drop (i * 4) shuffled)) (seq 0 (card_stacks g)) in
  ss <- deal_loop (stacks g) new_stacks (seq 0 (card_stacks g)) ;;
  Ok (set_stacks g ss).

End Game.

(** ** The screen reader of [exa_gui.py] *)

Module Gui.

(** [read_freecells()] *)
Definition read_freecells : list Z := [0].

(** [computer_hash]: the string built from what [read_freecells] and
    [read_stacks] return (the third item of the result). *)
Definition freecell_hash (freecells : list Z) : string :=
  String.concat "" (map (fun x => if (x =? 0)%Z then "F/" else "FL/") freecells).

Definition stack_hash (stacks : list (list string)) : string :=
  String.concat ""
    (map (fun stack => "S" +:+ String.concat "" stack +:+ "/") stacks).

Definition computer_hash (stacks : list (list string)) (freecells : list Z)
  : string :=
  stack_hash stacks +:+ freecell_hash freecells.

(** The calls of [main] and [loop_many] on the string read:
    [Game()], [exact_setup], [global_solve(-1)]. *)
Definition solve_screen (fuel : nat) (game_hash : string)
  : option (result (list Game.fixed_move)) :=
  match Game.exact_setup (Game.init 9 1 100) game_hash with
  | Ok game => Game.global_solve fuel game (-1)
  | Raise e => Some (Raise e)
  end.

End Gui.

(** * The vocabulary of the properties *)

(** ** Two games with the same stacks (C1) *)

(** Two stacks, to be laid out in both orders. *)
Definition two_stacks : list Stack.t :=
  [Stack.mk Stack.stack_kind false (Cards ["8R"; "8R"; "8R"]) (Stack.PastStr "");
   Stack.mk Stack.stack_kind false (Cards []) (Stack.PastStr "")].

(** ** The compatibility rule (C2) *)

(** The card codes of the deck. *)
Definition valid_card (c : string) : Prop :=
  c ∈ Game.face_cards ++ Game.number_cards.

(** The rule as the specification words it.  A card code is a rank followed
    by a suit; a face card has one of the four face ranks; the value of a
    numeric card is its digit, 10 for the rank [0]; the colour of a numeric
    card is its suit letter. *)
Definition rank (c : string) : option ascii := String.get 0 c.
Definition suit (c : string) : option ascii := String.get 1 c.
Definition is_face (c : string) : Prop :=
  ∃ r, rank c = Some r ∧ r ∈ Stack.face_values.
Definition value (c : string) : option Z :=
  r ← rank c; Some (if bool_decide (r = "0"%char) then 10 else int_of_digit r).
Definition colour (c : string) : option ascii := suit c.

Definition compatible_spec (top bottom : string) : Prop :=
  (is_face top ∧ is_face bottom ∧ suit top = suit bottom)
  ∨ (¬ is_face top ∧ ¬ is_face bottom
     ∧ value bottom = (λ v, v - 1) <$> value top
     ∧ colour top ≠ colour bottom).

Global Instance is_face_dec c : Decision (is_face c).
Proof.
  unfold is_face. destruct (rank c) as [r|].
  - destruct (decide (r ∈ Stack.face_values)) as [H|H].
    + left. eauto.
    + right. intros (r' & [= <-] & ?). done.
  - right. intros (r' & [=] & ?).
Defined.

Global Instance compatible_spec_dec top bottom : Decision (compatible_spec top bottom).
Proof. unfold compatible_spec. apply _. Defined.

(** What C2 says of one pair of cards. *)
Definition compatible_ok (top bottom : string) : Prop :=
  Stack.compatible top bottom = Ok (bool_decide (compatible_spec top bottom))
  ∧ (is_face top ∧ ¬ is_face bottom ∨ ¬ is_face top ∧ is_face bottom →
     Stack.compatible top bottom = Ok false)
  ∧ (¬ is_face top ∧ ¬ is_face bottom →
     Stack.compatible top bottom = Ok true →
     Stack.compatible bottom top = Ok false)
  ∧ (is_face top ∧ is_face bottom →
     Stack.compatible bottom top = Stack.compatible top bottom).

Global Instance compatible_ok_dec top bottom : Decision (compatible_ok top bottom).
Proof. unfold compatible_ok. apply _. Defined.

(** ** The collapse (C3) *)

(** The contents are four copies of one face card. *)
Definition four_faces (l : list string) : Prop :=
  ∃ c, c ∈ Stack.face_cards ∧ l = replicate 4 c.

(** A collapsed stack: the marker in place of the cards, and locked. *)
Definition collapsed (s : Stack.t) : Prop :=
  Stack.stack s = X ∧ Stack.locked s = true.

(** The methods of [Stack] that assign to [self]. *)
Inductive stack_op : Type :=
  | op_init_cards (cards : list string)
  | op_resolve_move_to (card : contents)
  | op_resolve_move_from (max_stack : nat).

(** The stack after a call; a call that raises has assigned nothing. *)
Definition run_op (s : Stack.t) (o : stack_op) : Stack.t :=
  match o with
  | op_init_cards cards =>
      match Stack.init_cards s cards with Ok s' => s' | Raise _ => s end
  | op_resolve_move_to card =>
      match Stack.resolve_move_to s card with Ok s' => s' | Raise _ => s end
  | op_resolve_move_from max_stack =>
      match Stack.resolve_move_from s max_stack with Ok r => r.1 | Raise _ => s end
  end.

Definition op_raises (s : Stack.t) (o : stack_op) : Prop :=
  match o with
  | op_init_cards cards => raises (Stack.init_cards s cards)
  | op_resolve_move_to card => raises (Stack.resolve_move_to s card)
  | op_resolve_move_from max_stack => raises (Stack.resolve_move_from s max_stack)
  end.

(** ** The score (C6) *)

(** The contribution of one stack as the specification words it: 20 for a
    complete stack; otherwise 10 for an empty unconstrained stack, 5 minus
    the number of cards below the top run for a non-empty one, 0 for a
    single-card stack. *)
Definition stack_points (s : Stack.t) : result Z :=
  if Stack.is_complete s then Ok 20
  else
    match Stack.card_type s, Stack.stack s with
    | Stack.freecell_kind, _ => Ok 0
    | Stack.stack_kind, Cards [] => Ok 10
    | Stack.stack_kind, Cards l =>
        run <- Stack.which_cards_moving s ;;
        Ok (5 - (Z.of_nat (length l) - Z.of_nat (length run)))
    | Stack.stack_kind, X => Ok 20
    end.

Definition sum_points (pts : list Z) : Z := foldr Z.add 0 pts.

(** ** Well-formed stacks and legal moves (C5, C8) *)

(** The cards [get_score] and [enumerate_moves] compare are codes of two
    characters. *)
Definition two_chars (s : Stack.t) : Prop :=
  ∀ l, Stack.stack s = Cards l → Forall (λ c, String.length c = 2%nat) l.

(** A stack as the program builds it: the cards are codes of two
    characters, and the marker comes with the lock. *)
Definition wf_stack (s : Stack.t) : Prop :=
  two_chars s ∧ (Stack.stack s = X → Stack.locked s = true).

(** The move from [src] to [dst] as the specification words it. *)
Definition legal_move (g : Game.t) (src dst : nat) : Prop :=
  ∃ origin dest run bottom,
    Game.stacks g !! src = Some origin
    ∧ Game.stacks g !! dst = Some dest
    ∧ src ≠ dst
    ∧ Stack.locked dest = false
    ∧ last (Game.move_history g) ≠ Some (dst, src)
    ∧ Stack.is_move_from_legal origin = true
    ∧ Stack.which_cards_moving origin = Ok run
    ∧ head run = Some bottom
    ∧ Stack.is_move_to_legal dest (Cards [bottom]) = Ok true.

(** The order of the result: by destination, then by origin. *)
Definition move_lt (m1 m2 : nat * nat) : Prop :=
  (m1.2 < m2.2)%nat ∨ (m1.2 = m2.2 ∧ (m1.1 < m2.1)%nat).

(** The moves to [i] from the origins [js], and over the destinations
    [dests], when no call raises. *)
Definition valid_row (g : Game.t) (i : nat) (js : list nat) : list (nat * nat) :=
  (λ j, (j, i)) <$> filter (λ j, Game.move_valid g i j = Ok true) js.

Definition valid_rows (g : Game.t) (dests : list nat) : list (nat * nat) :=
  dests ≫= λ i,
    match Game.stacks g !! i with
    | Some dest =>
        if Stack.locked dest then []
        else valid_row g i (seq 0 (length (Game.stacks g)))
    | None => []
    end.

(** The claim as it is worded: dead when there is no move and the depth is
    positive. *)
Definition is_dead_with_depth : Prop :=
  ∀ (g : Game.t) (moves : list (nat * nat)),
    Game.enumerate_moves g = Ok moves →
    (Game.is_dead g = Ok true ↔ moves = [] ∧ 0 < Game.depth g).

(** A fresh game of one empty stack: no move, depth 0. *)
Definition lone_stack : Game.t := Game.init 1 0 100.

(** ** The count of cards (C4) *)

(** The cards a stack accounts for: those it shows, 4 once collapsed. *)
Definition card_count (s : Stack.t) : Z :=
  match Stack.stack s with
  | Cards l => Z.of_nat (length l)
  | X => 4
  end.

Definition total_cards (ss : list Stack.t) : Z :=
  foldr Z.add 0 (card_count <$> ss).

(** The marker comes with the lock. *)
Definition marker_locked (s : Stack.t) : Prop :=
  Stack.stack s = X → Stack.locked s = true.

(** ** Games decided at the root (C9, C10) *)

(** The number of stacks that are done: collapsed, or holding a finished
    run. *)
Definition finished_stacks (g : Game.t) : nat :=
  length (filter (λ s, Stack.is_complete s = true) (Game.stacks g)).

(** The claim as it is worded: on an input that encodes a finished board
    the game is complete, and the solver returns the empty list. *)
Definition solved_input_returns_empty : Prop :=
  ∀ (h : string) (g : Game.t),
    Game.exact_setup (Game.init 9 1 100) h = Ok g →
    finished_stacks g = 8%nat →
    Game.is_complete g = true
    ∧ ∃ fuel, Game.global_solve fuel g (-1) = Some (Ok []).

(** A finished board: four collapsed stacks, the four number runs, an
    empty stack and the free cell. *)
Definition finished_input : string :=
  "SX[11]/SX[12]/SX[13]/SX[14]/S0R9B8R7B6R/S0R9B8R7B6R/S0B9R8B7R6B/S0B9R8B7R6B/S/F/".

Definition finished_game : Game.t :=
  Eval vm_compute in
    match Game.exact_setup (Game.init 9 1 100) finished_input with
    | Ok g => g
    | Raise _ => Game.init 9 1 100
    end.

(** The claim as it is worded: at the root, a game that is not complete
    and has no move makes [solve] raise, and the search never returns the
    empty list. *)
Definition stuck_root_raises : Prop :=
  ∀ g : Game.t,
    Game.depth g = 0 → Game.is_complete g = false →
    Game.enumerate_moves g = Ok [] →
    raises (Game.solve g)
    ∧ ∀ (fuel : nat) (print_level : Z),
        Game.global_solve fuel g print_level ≠ Some (Ok []).

(** [Game(1, 0, -1)]: one empty stack and a cutoff below the root. *)
Definition shallow_game : Game.t := Game.init 1 0 (-1).

(** ** Hashes and their decoding (C7) *)

(** A stack of three [HH] and the fourth [HH] in the free cell; the only
    move collapses the stack. *)
Definition three_faces : Stack.t :=
  Stack.mk Stack.stack_kind false (Cards ["HH"; "HH"; "HH"]) (Stack.PastStr "").

Definition fourth_face : Stack.t :=
  Stack.mk Stack.freecell_kind false (Cards ["HH"]) (Stack.PastStr "").

Definition collapsed_stack : Stack.t :=
  Stack.mk Stack.stack_kind true X (Stack.PastStr "HH").

Definition before_collapse : Game.t :=
  Game.mk [three_faces; fourth_face] 1 0 100 [] 0.

Definition collapsed_game : Game.t :=
  Game.mk [collapsed_stack; Stack.init Stack.freecell_kind false] 1 1 100
    [(1%nat, 0%nat)] 20.

(** A card code as the hash can carry it: two characters, no separator,
    and not the letter that marks a collapsed stack in front. *)
Definition card_code (c : string) : Prop :=
  ∃ a b : ascii, c = String a (String b "")
    ∧ a ≠ "/"%char ∧ b ≠ "/"%char ∧ a ≠ "X"%char.

Definition open_stack (s : Stack.t) : Prop :=
  ∃ l, Stack.stack s = Cards l ∧ Forall card_code l.

(** The stack [exact_setup] builds for the hash of an open stack. *)
Definition decoded (s : Stack.t) : Stack.t :=
  Stack.mk (Stack.card_type s) false (Stack.stack s) (Stack.PastStr "").

Fixpoint no_slash (s : string) : Prop :=
  match s with
  | EmptyString => True
  | String c rest => c ≠ "/"%char ∧ no_slash rest
  end.

(** ** Moves, replays, the search and the screen *)

(** The origin once the cards [pre] are left on it. *)
Definition after_take (origin : Stack.t) (pre : list string) : Stack.t :=
  Stack.mk (Stack.card_type origin) (Stack.locked origin) (Cards pre)
    (Stack.past_cards origin).

(** The destination once it holds the cards [l]: collapsed when they are
    four copies of a face card. *)
Definition after_append (dest : Stack.t) (l : list string) : Stack.t :=
  if Stack.collapses l
  then Stack.mk (Stack.card_type dest) true X (Stack.PastStr (default "" (head l)))
  else Stack.mk (Stack.card_type dest) (Stack.locked dest) (Cards l)
         (Stack.past_cards dest).

(** [c] is the game [solve] derives from [g] by [move]. *)
Definition child_of (g : Game.t) (move : nat * nat) (c : Game.t) : Prop :=
  Game.apply_move (Game.stacks g) move = Ok (Game.stacks c)
  ∧ Game.depth c = Game.depth g + 1
  ∧ Game.max_depth c = Game.max_depth g
  ∧ Game.move_history c = Game.move_history g ++ [move]
  ∧ Game.score_loop 0 (Game.stacks c) = Ok (Game.score c)
  ∧ Forall wf_stack (Game.stacks c)
  ∧ length (Game.stacks c) = length (Game.stacks g).

(** The moves carried out one after another, as [solve] carries out one. *)
Fixpoint apply_moves (ss : list Stack.t) (moves : list (nat * nat))
  : result (list Stack.t) :=
  match moves with
  | [] => Ok ss
  | move :: rest => ss' <- Game.apply_move ss move ;; apply_moves ss' rest
  end.

(** The source and the destination of an entry of [play_game]. *)
Definition move_of (f : Game.fixed_move) : nat * nat := (f.1.1.1, f.1.2).

(** The moves recorded in [n] lead from the stacks of [self] to the stacks
    of [n]. *)
Definition reached (self n : Game.t) : Prop :=
  apply_moves (Game.stacks self) (Game.move_history n) = Ok (Game.stacks n).

(** A bound on the number of nodes under a node that is [r] levels above
    the cutoff, when no node has more than [b] children. *)
Fixpoint pot (b r : nat) : nat :=
  match r with
  | O => 1
  | S r' => 1 + b * pot b r'
  end.

(** The levels left to a node: 0 beyond the cutoff. *)
Definition levels_left (n : Game.t) : nat :=
  Z.to_nat (Game.max_depth n - Game.depth n + 1).

Definition node_pot (b : nat) (n : Game.t) : nat := pot b (levels_left n).

Definition queue_pot (b : nat) (queue : list Game.t) : nat :=
  sum_list_with (node_pot b) queue.

(** A stack as the search meets it: cards that are card codes, or the
    marker with the card code of the collapse. *)
Definition hashable (s : Stack.t) : Prop :=
  open_stack s
  ∨ (Stack.stack s = X ∧ ∃ c, Stack.past_cards s = Stack.PastStr c ∧ card_code c).

(** What the hash of a stack tells of it: its type, its contents, and the
    card it remembers once collapsed. *)
Definition same_state (s1 s2 : Stack.t) : Prop :=
  Stack.card_type s1 = Stack.card_type s2
  ∧ Stack.stack s1 = Stack.stack s2
  ∧ (Stack.stack s1 = X → Stack.past_cards s1 = Stack.past_cards s2).

(** A stack that comes out of [decode_stack]: locked exactly when it holds
    the marker, and then remembering nothing or an integer that is not
    negative; remembering nothing when it holds cards. *)
Definition freshly_decoded (s : Stack.t) : Prop :=
  (Stack.locked s = true ↔ Stack.stack s = X)
  ∧ (Stack.stack s ≠ X → Stack.past_cards s = Stack.PastStr "")
  ∧ (Stack.stack s = X →
     Stack.past_cards s = Stack.PastStr ""
     ∨ ∃ n, 0 <= n ∧ Stack.past_cards s = Stack.PastInt n).

(** The stack for a column read from the screen, and the free cell for an
    entry of [read_freecells]. *)
Definition pile (cards : list string) : Stack.t :=
  Stack.mk Stack.stack_kind false (Cards cards) (Stack.PastStr "").

Definition cell (x : Z) : Stack.t :=
  Stack.mk Stack.freecell_kind false
    (Cards (if (x =? 0)%Z then [] else ["L"])) (Stack.PastStr "").

(** The cards a stack shows. *)
Definition cards_of (s : Stack.t) : list string :=
  match Stack.stack s with Cards l => l | X => [] end.

(** The slice [cards[i * 4 : i * 4 + 4]]. *)
Definition slice4 (cards : list string) (i : nat) : list string :=
  take 4 (drop (i * 4) cards).

(** The stacks of a fresh game once the first [k] of its [n] stacks have
    been dealt to. *)
Definition dealt (cards : list string) (n f k : nat) : list Stack.t :=
  map (λ i, pile (slice4 cards i)) (seq 0 k)
  ++ replicate (n - k) (Stack.init Stack.stack_kind false)
  ++ replicate f (Stack.init Stack.freecell_kind false).

(** Every card of [l] but the last is compatible with the next one. *)
Definition chain (l : list string) : Prop :=
  ∀ i a b, l !! i = Some a → l !! S i = Some b → Stack.compatible a b = Ok true.

(** The cards a stack stands for: those it shows, or four copies of the
    card it remembers once it has collapsed on a move. *)
Definition cards_held (s : Stack.t) : list string :=
  match Stack.stack s with
  | Cards l => l
  | X => match Stack.past_cards s with
         | Stack.PastStr c => replicate 4 c
         | Stack.PastInt _ => []
         end
  end.

Definition board_cards (ss : list Stack.t) : list string :=
  mjoin (cards_held <$> ss).

(** A free cell holds one card at most. *)
Definition cell_bound (s : Stack.t) : Prop :=
  Stack.card_type s = Stack.freecell_kind →
  ∀ l, Stack.stack s = Cards l → (length l <= 1)%nat.

(** A game that one move finishes: seven collapsed stacks, three [HH] on
    the eighth and the fourth in the free cell. *)
Definition one_move_left : Game.t :=
  Eval vm_compute in
    match Game.exact_setup (Game.init 9 1 100)
            "SX[11]/SX[11]/SX[11]/SX[11]/SX[11]/SX[11]/SX[11]/SHHHHHH/FHH/" with
    | Ok g => g
    | Raise _ => Game.init 9 1 100
    end.

(** The game before the collapse with the cutoff at the root. *)
Definition shallow_collapse : Game.t :=
  Game.mk [three_faces; fourth_face] 1 0 0 [] 0.

(** Columns read from a screen: the four number runs, the four kinds of
    face cards and an empty column. *)
Definition sorted_columns : list (list string) :=
  [["0R"; "9B"; "8R"; "7B"; "6R"]; ["0R"; "9B"; "8R"; "7B"; "6R"];
   ["0B"; "9R"; "8B"; "7R"; "6B"]; ["0B"; "9R"; "8B"; "7R"; "6B"];
   ["HH"; "HH"; "HH"; "HH"]; ["SS"; "SS"; "SS"; "SS"];
   ["CC"; "CC"; "CC"; "CC"]; ["DD"; "DD"; "DD"; "DD"]; []].

(** A run of two cards on two others. *)
Definition run_of_two : Stack.t := pile ["9B"; "7R"; "0R"; "9B"].

(** A run of two cards on a third, beside an empty stack. *)
Definition run_on_a_card : Game.t :=
  Game.mk [pile ["7R"; "0R"; "9B"]; pile []] 2 0 100 [] 0.

(** A card and a free cell read as locked. *)
Definition with_locked_cell : Game.t :=
  Game.mk [pile ["9B"]; cell 1] 1 0 100 [] 0.

(** * Properties *)

(** ** The order of strings *)

Lemma compare_not_gt_trans (s1 s2 s3 : string) :
  String.compare s1 s2 ≠ Gt → String.compare s2 s3 ≠ Gt →
  String.compare s1 s3 ≠ Gt.
Proof.
  revert s2 s3. induction s1 as [|a s1 IH]; intros [|b s2] [|c s3]; simpl;
    try congruence.
  unfold Ascii.compare.
  destruct (N.compare_spec (N_of_ascii a) (N_of_ascii b)) as [Hab|Hab|Hab];
    destruct (N.compare_spec (N_of_ascii b) (N_of_ascii c)) as [Hbc|Hbc|Hbc];
    try congruence.
  - rewrite Hab, Hbc, N.compare_refl. apply IH.
  - intros _ _. rewrite Hab. apply N.compare_lt_iff in Hbc. rewrite Hbc. congruence.
  - intros _ _. rewrite <- Hbc. apply N.compare_lt_iff in Hab. rewrite Hab. congruence.
  - intros _ _. assert (H : (N_of_ascii a < N_of_ascii c)%N) by lia.
    apply N.compare_lt_iff in H. rewrite H. congruence.
Qed.

Global Instance str_le_trans : Transitive str_le.
Proof.
  intros s1 s2 s3. unfold str_le, String.leb. intros H12 H23.
  pose proof (compare_not_gt_trans s1 s2 s3) as H.
  destruct (String.compare s1 s2), (String.compare s2 s3),
    (String.compare s1 s3); try congruence; exfalso; apply H; congruence.
Qed.

Global Instance str_le_total : Total str_le.
Proof. intros s1 s2. apply String.leb_total. Qed.

Global Instance str_le_antisymm : AntiSymm (=) str_le.
Proof. intros s1 s2. apply String.leb_antisym. Qed.

(** Whatever sorting algorithm is run, the outcome is the one of
    [merge_sort]: a list of strings has one sorted arrangement. *)
Lemma sorted_strings_unique (l sorted : list string) :
  Sorted str_le sorted → sorted ≡ₚ l → sorted = merge_sort str_le l.
Proof.
  intros Hs Hp. apply (Sorted_unique str_le); auto.
  - apply Sorted_merge_sort, _.
  - rewrite merge_sort_Permutation. exact Hp.
Qed.

(** ** Results and iterations *)

Lemma traverse_ok {A B : Type} (f : A → result B) (l : list A) :
  Forall (λ a, ∃ b, f a = Ok b) l → ∃ bs, traverse f l = Ok bs.
Proof.
  induction 1 as [|a l [b Hb] _ [bs Hbs]]; simpl; [by eexists|].
  rewrite Hb, Hbs. by eexists.
Qed.

Lemma traverse_Forall2 {A B : Type} (f : A → result B) (l : list A) (bs : list B) :
  traverse f l = Ok bs → Forall2 (λ a b, f a = Ok b) l bs.
Proof.
  revert bs. induction l as [|a l IH]; intros bs; simpl.
  - intros [= <-]. constructor.
  - destruct (f a) as [b|e] eqn:Hb; simpl; [|done].
    destruct (traverse f l) as [bs'|e]; simpl; [|done].
    intros [= <-]. constructor; auto.
Qed.

(** ** Runs and legality on well-formed stacks *)

Lemma compatible_two_chars (top bottom : string) :
  String.length top = 2%nat → String.length bottom = 2%nat →
  ∃ b, Stack.compatible top bottom = Ok b.
Proof.
  intros Ht Hb.
  destruct top as [|t1 [|t2 [|]]]; try done.
  destruct bottom as [|b1 [|b2 [|]]]; try done.
  unfold Stack.compatible. simpl.
  repeat match goal with |- context [if ?c then _ else _] => destruct c end;
    eauto.
Qed.

Lemma take_below_two_chars (below : list string) (upper : string) :
  Forall (λ c, String.length c = 2%nat) below → String.length upper = 2%nat →
  ∃ more, Stack.take_below below upper = Ok more.
Proof.
  intros Hb. revert upper. induction Hb as [|c rest Hc Hrest IH]; intros upper Hu.
  - by eexists.
  - simpl. destruct (compatible_two_chars c upper Hc Hu) as [[|] ->]; simpl.
    + destruct (IH c Hc) as [more ->]. by eexists.
    + by eexists.
Qed.

Lemma which_cards_moving_two_chars (s : Stack.t) :
  two_chars s → Stack.stack s ≠ Cards [] →
  ∃ run, Stack.which_cards_moving s = Ok run.
Proof.
  intros Hs Hne. unfold Stack.which_cards_moving.
  destruct (Stack.stack s) as [l|] eqn:Hl; [|by eexists].
  specialize (Hs l Hl). apply Forall_reverse in Hs.
  destruct (reverse l) as [|top below] eqn:Hr.
  - apply (f_equal reverse) in Hr. rewrite reverse_involutive in Hr. by subst l.
  - apply Forall_cons in Hs as [Htop Hbelow].
    destruct (take_below_two_chars below top Hbelow Htop) as [more ->].
    by eexists.
Qed.

(** The run [which_cards_moving] returns is a non-empty final segment of
    the cards. *)
Lemma take_below_prefix (below : list string) (upper : string) (more : list string) :
  Stack.take_below below upper = Ok more → ∃ rest, below = more ++ rest.
Proof.
  revert upper more. induction below as [|c below IH]; intros upper more; simpl.
  - intros [= <-]. by exists [].
  - destruct (Stack.compatible c upper) as [[|]|e]; simpl; [| |done].
    + destruct (Stack.take_below below c) as [more'|e] eqn:Hm; simpl; [|done].
      intros [= <-]. destruct (IH c more' Hm) as [rest ->]. by exists rest.
    + intros [= <-]. by eexists.
Qed.

Lemma which_cards_moving_suffix (s : Stack.t) (l run : list string) :
  Stack.stack s = Cards l → Stack.which_cards_moving s = Ok run →
  ∃ pre, l = pre ++ run ∧ run ≠ [].
Proof.
  intros Hs. unfold Stack.which_cards_moving. rewrite Hs.
  destruct (reverse l) as [|top below] eqn:Hr; [done|].
  destruct (Stack.take_below below top) as [more|e] eqn:Hm; simpl; [|done].
  intros [= <-]. destruct (take_below_prefix _ _ _ Hm) as [rest ->].
  exists (reverse rest). split.
  - apply (f_equal reverse) in Hr. rewrite reverse_involutive in Hr.
    rewrite Hr, (reverse_cons (more ++ rest)), reverse_app, reverse_cons.
    by rewrite <- (assoc_L (++)).
  - rewrite reverse_cons. intros H. by apply app_nil in H as [_ ?].
Qed.

Lemma is_move_to_legal_total (dest : Stack.t) (bottom : string) (rest : list string) :
  wf_stack dest → String.length bottom = 2%nat →
  ∃ b, Stack.is_move_to_legal dest (Cards (bottom :: rest)) = Ok b.
Proof.
  intros [Hchars Hmark] Hb. unfold Stack.is_move_to_legal.
  destruct (Stack.locked dest) eqn:Hlock; [by eexists|].
  destruct (Stack.stack dest) as [l|] eqn:Hl; [|by specialize (Hmark eq_refl)].
  specialize (Hchars l Hl).
  destruct (Stack.card_type dest); cbn [bool_decide decide_rel andb].
  - destruct l as [|c l _] using rev_ind; [by eexists|].
    assert (py_truthy (Cards (l ++ [c])) = true) as -> by (by destruct l).
    cbn [py_last py_first]. rewrite last_snoc. cbn [bind].
    apply Forall_app in Hchars as [_ Hc]. apply Forall_cons in Hc as [Hc _].
    destruct (compatible_two_chars c bottom Hc Hb) as [b ->]. by eexists.
  - destruct (py_truthy (Cards l)); [by eexists|].
    destruct (1 <? py_len (Cards (bottom :: rest)))%nat; by eexists.
Qed.

(** A stack holding the marker accepts no move, locked or not. *)
Lemma is_move_to_legal_marker (s : Stack.t) (card : contents) :
  Stack.stack s = X → Stack.is_move_to_legal s card ≠ Ok true.
Proof.
  intros HX. unfold Stack.is_move_to_legal. rewrite HX.
  destruct (Stack.locked s); [done|].
  destruct (Stack.card_type s); simpl; [|done].
  destruct (py_first card); simpl; done.
Qed.

(** The legality of a move to a stack depends on the first card moved
    only; a free cell also looks at whether more than one card comes. *)
Lemma is_move_to_legal_first (s : Stack.t) (c : string) (mv : list string) :
  head mv = Some c →
  (Stack.card_type s = Stack.freecell_kind → length mv = 1%nat) →
  Stack.is_move_to_legal s (Cards mv) = Stack.is_move_to_legal s (Cards [c]).
Proof.
  intros Hhead Hcell. unfold Stack.is_move_to_legal.
  destruct mv as [|c' mv]; simplify_eq/=.
  destruct (Stack.card_type s); simpl; [done|].
  specialize (Hcell eq_refl). by destruct mv.
Qed.

Lemma before_collapse_wf : Forall wf_stack (Game.stacks before_collapse).
Proof.
  repeat constructor; try (intros l [= <-]; repeat constructor);
    intros [=].
Qed.

(** ** C1: the hash of a game does not depend on the order of its stacks *)

(** C1. Two games whose stacks are the same up to their left-to-right order
    have the same hash: for both it is the concatenation of one list, the
    per-stack hash strings (each closed by its [/]) in lexicographic order. *)
Theorem hash_stack_order (g1 g2 : Game.t) :
  Game.stacks g1 ≡ₚ Game.stacks g2 →
  ∃ chunks : list string,
    Sorted str_le chunks
    ∧ chunks ≡ₚ map (fun s => Stack.hash s +:+ "/") (Game.stacks g1)
    ∧ Game.hash g1 = String.concat "" chunks
    ∧ Game.hash g2 = String.concat "" chunks.
Proof.
  intros Hperm. exists (merge_sort str_le (Game.stack_chunks g1)).
  split; [apply Sorted_merge_sort, _|].
  split; [apply merge_sort_Permutation|].
  split; [reflexivity|].
  unfold Game.hash. f_equal. symmetry.
  apply sorted_strings_unique; [apply Sorted_merge_sort, _|].
  rewrite merge_sort_Permutation. unfold Game.stack_chunks.
  apply Permutation_map. exact Hperm.
Qed.

Lemma hash_stack_order_witness :
  Game.hash (Game.mk two_stacks 2 0 100 [] 0)
  = Game.hash (Game.mk (reverse two_stacks) 2 0 100 [] 0).
Proof.
  destruct (hash_stack_order (Game.mk two_stacks 2 0 100 [] 0)
              (Game.mk (reverse two_stacks) 2 0 100 [] 0)) as (c & _ & _ & H1 & H2).
  - simpl. apply perm_swap.
  - rewrite H1, H2. reflexivity.
Defined.

(** ** C2: the compatibility rule *)

Lemma compatible_ok_deck :
  Forall (λ top, Forall (compatible_ok top) (Game.face_cards ++ Game.number_cards))
    (Game.face_cards ++ Game.number_cards).
Proof. apply (bool_decide_unpack _). vm_compute. reflexivity. Qed.

(** C2. On the card codes of the deck, [compatible(top, bottom)] is true
    exactly when both are face cards of one suit, or both are numeric,
    bottom's value is top's value minus 1 and the colours differ; a face
    card with a numeric card gives false; a numeric pair accepted in one
    order is refused in the other; a pair of face cards gives the same
    answer in both orders. *)
Theorem compatible_rule (top bottom : string) :
  valid_card top → valid_card bottom →
  (∃ b : bool, Stack.compatible top bottom = Ok b
     ∧ (b = true ↔ compatible_spec top bottom))
  ∧ (is_face top ∧ ¬ is_face bottom ∨ ¬ is_face top ∧ is_face bottom →
     Stack.compatible top bottom = Ok false)
  ∧ (¬ is_face top ∧ ¬ is_face bottom →
     Stack.compatible top bottom = Ok true →
     Stack.compatible bottom top = Ok false)
  ∧ (is_face top ∧ is_face bottom →
     Stack.compatible bottom top = Stack.compatible top bottom).
Proof.
  intros Ht Hb.
  pose proof compatible_ok_deck as H.
  rewrite Forall_forall in H. specialize (H top Ht).
  rewrite Forall_forall in H. specialize (H bottom Hb).
  destruct H as (H1 & H2 & H3 & H4).
  split; [|auto].
  eexists. split; [exact H1|].
  split; [apply bool_decide_eq_true_1 | apply bool_decide_eq_true_2].
Qed.

Lemma compatible_rule_witness :
  Stack.compatible "9B" "8R" = Ok true ∧ Stack.compatible "8R" "9B" = Ok false.
Proof.
  assert (Ht : valid_card "9B") by (apply (bool_decide_unpack _); vm_compute; reflexivity).
  assert (Hb : valid_card "8R") by (apply (bool_decide_unpack _); vm_compute; reflexivity).
  destruct (compatible_rule "9B" "8R" Ht Hb) as (_ & _ & H & _).
  split; [reflexivity|].
  apply H; [|reflexivity].
  split; intros (r & [= <-] & Hr); revert Hr; apply (bool_decide_unpack _);
    vm_compute; reflexivity.
Defined.

(** ** C3: appending a run, and the collapse *)

Lemma collapses_four_faces (l : list string) :
  Stack.collapses l = true ↔ four_faces l.
Proof.
  unfold Stack.collapses, four_faces. destruct l as [|c l].
  - split; [done|]. intros (c & _ & H). done.
  - rewrite !andb_true_iff, !bool_decide_eq_true. split.
    + intros [[_ H] Hc]. eauto.
    + intros (c' & Hc & H). assert (c' = c) as -> by (simpl in H; congruence).
      rewrite H. done.
Qed.

Lemma resolve_move_to_legal (s : Stack.t) (run : list string) :
  Stack.is_move_to_legal s (Cards run) = Ok true →
  ∃ l, Stack.stack s = Cards l
    ∧ Stack.resolve_move_to s (Cards run)
      = Ok (if Stack.collapses (l ++ run)
            then Stack.mk (Stack.card_type s) true X
                   (Stack.PastStr (default "" (head (l ++ run))))
            else Stack.mk (Stack.card_type s) (Stack.locked s)
                   (Cards (l ++ run)) (Stack.past_cards s)).
Proof.
  intros Hlegal. destruct (Stack.stack s) as [l|] eqn:Hs.
  - exists l. split; [done|]. unfold Stack.resolve_move_to.
    rewrite Hlegal, Hs. simpl. destruct (l ++ run) as [|c l'] eqn:Hl;
      [reflexivity|].
    destruct (Stack.collapses (c :: l')); reflexivity.
  - by apply is_move_to_legal_marker with (card := Cards run) in Hs.
Qed.

Lemma collapsed_op_raises (s : Stack.t) (o : stack_op) :
  collapsed s → op_raises s o.
Proof.
  intros [HX Hl]. destruct o as [cards|card|m]; simpl.
  - unfold Stack.init_cards. rewrite HX. simpl. by eexists.
  - unfold Stack.resolve_move_to, Stack.is_move_to_legal. rewrite Hl. simpl.
    by eexists.
  - unfold Stack.resolve_move_from, Stack.is_move_from_legal. rewrite Hl. simpl.
    by eexists.
Qed.

Lemma collapsed_run_op (s : Stack.t) (o : stack_op) :
  collapsed s → run_op s o = s.
Proof.
  intros Hc. pose proof (collapsed_op_raises s o Hc) as Hr.
  destruct o; simpl in *; destruct Hr as [e ->]; done.
Qed.

(** C3. [resolve_move_to] raises exactly when [is_move_to_legal] does not
    answer true (it raises the illegal-move exception when the answer is
    false; on a well-formed stack and a run that starts with a card code
    the answer is always true or false).  When it returns, the stack held
    a list of cards, and either the list with the run appended is four
    copies of one face card, and the stack now holds the marker, remembers
    that card and is locked, or it is not, and the stack holds the appended
    list with its lock and remembered card unchanged.  On a collapsed stack
    every assigning method raises, so that no sequence of calls changes
    it. *)
Theorem resolve_move_to_collapse (s : Stack.t) (run : list string) :
  (raises (Stack.resolve_move_to s (Cards run))
     ↔ Stack.is_move_to_legal s (Cards run) ≠ Ok true)
  ∧ (Stack.is_move_to_legal s (Cards run) = Ok false
     → Stack.resolve_move_to s (Cards run)
       = Raise (Failure "Trying to force illegal move"))
  ∧ (wf_stack s → (∃ c rest, run = c :: rest ∧ String.length c = 2%nat) →
     ∃ legal : bool, Stack.is_move_to_legal s (Cards run) = Ok legal
       ∧ (raises (Stack.resolve_move_to s (Cards run)) ↔ legal = false))
  ∧ (∀ s', Stack.resolve_move_to s (Cards run) = Ok s' →
       ∃ l, Stack.stack s = Cards l
         ∧ ((∃ c, c ∈ Stack.face_cards ∧ l ++ run = replicate 4 c
               ∧ s' = Stack.mk (Stack.card_type s) true X (Stack.PastStr c))
            ∨ (¬ four_faces (l ++ run)
               ∧ s' = Stack.mk (Stack.card_type s) (Stack.locked s)
                        (Cards (l ++ run)) (Stack.past_cards s))))
  ∧ (∀ s', Stack.resolve_move_to s (Cards run) = Ok s' → collapsed s' →
       ∀ ops : list stack_op,
         foldl run_op s' ops = s' ∧ Forall (op_raises s') ops).
Proof.
  assert (Hiff : raises (Stack.resolve_move_to s (Cards run))
                 ↔ Stack.is_move_to_legal s (Cards run) ≠ Ok true).
  { destruct (Stack.is_move_to_legal s (Cards run)) as [[|]|e] eqn:Hlegal.
    - destruct (resolve_move_to_legal s run Hlegal) as (l & _ & ->).
      split; [by intros [e He] | done].
    - unfold Stack.resolve_move_to. rewrite Hlegal. split; [done | by eexists].
    - unfold Stack.resolve_move_to. rewrite Hlegal. split; [done | by eexists]. }
  split; [exact Hiff|]. split_and!.
  - intros Hlegal. unfold Stack.resolve_move_to. by rewrite Hlegal.
  - intros Hwf (c & rest & -> & Hc).
    destruct (is_move_to_legal_total s c rest Hwf Hc) as [legal Hlegal].
    exists legal. split; [done|]. rewrite Hiff, Hlegal.
    destruct legal; split; congruence.
  - intros s' Hs'.
    destruct (Stack.is_move_to_legal s (Cards run)) as [[|]|e] eqn:Hlegal;
      [|unfold Stack.resolve_move_to in Hs'; by rewrite Hlegal in Hs'..].
    destruct (resolve_move_to_legal s run Hlegal) as (l & Hs & Hres).
    exists l. split; [done|]. rewrite Hres in Hs'.
    destruct (Stack.collapses (l ++ run)) eqn:Hc.
    + left. apply collapses_four_faces in Hc as (c & Hc & Hl).
      exists c. rewrite Hl in Hs'. simpl in Hs'.
      split_and!; [done|done|congruence].
    + right. split; [|congruence].
      intros Hf. apply collapses_four_faces in Hf. congruence.
  - intros s' _ Hc ops. split.
    + induction ops as [|o ops IH]; [done|]. simpl.
      by rewrite collapsed_run_op.
    + apply Forall_forall. intros o _. by apply collapsed_op_raises.
Qed.

(** ** C5: the enumeration of the moves *)

Lemma moves_to_row (g : Game.t) (i : nat) (js : list nat) (row : list (nat * nat)) :
  Game.moves_to g i js = Ok row → row = valid_row g i js.
Proof.
  revert row. induction js as [|j js IH]; intros row; simpl.
  - by intros [= <-].
  - unfold valid_row. rewrite filter_cons.
    destruct (Game.move_valid g i j) as [ok|e]; simpl; [|done].
    destruct (Game.moves_to g i js) as [more|e]; simpl; [|done].
    intros [= <-]. rewrite (IH more eq_refl).
    destruct ok; [rewrite decide_True by done | rewrite decide_False by done];
      done.
Qed.

Lemma moves_over_rows (g : Game.t) (dests : list nat) (ms : list (nat * nat)) :
  Game.moves_over g dests = Ok ms → ms = valid_rows g dests.
Proof.
  revert ms. induction dests as [|i dests IH]; intros ms; simpl.
  - by intros [= <-].
  - unfold Game.stack_at. destruct (Game.stacks g !! i) as [dest|]; simpl; [|done].
    destruct (Stack.locked dest).
    + simpl. destruct (Game.moves_over g dests) as [more|e]; simpl; [|done].
      intros [= <-]. by rewrite (IH more eq_refl).
    + destruct (Game.moves_to g i _) as [row|e] eqn:Hrow; simpl; [|done].
      destruct (Game.moves_over g dests) as [more|e]; simpl; [|done].
      intros [= <-]. by rewrite (IH more eq_refl), (moves_to_row _ _ _ _ Hrow).
Qed.

Lemma move_valid_legal (g : Game.t) (i j : nat) (dest : Stack.t) :
  Game.stacks g !! i = Some dest → Stack.locked dest = false →
  Game.move_valid g i j = Ok true ↔ legal_move g j i.
Proof.
  intros Hi Hlock. unfold Game.move_valid, legal_move, Game.stack_at.
  rewrite Hi. split.
  - case_bool_decide as Hji; [done|].
    case_bool_decide as Hlast; [done|].
    destruct (Game.stacks g !! j) as [origin|]; simpl; [|done].
    destruct (Stack.is_move_from_legal origin) eqn:Hfrom; [|done].
    destruct (Stack.which_cards_moving origin) as [run|e] eqn:Hrun; simpl; [|done].
    destruct run as [|bottom run]; simpl; [done|].
    intros Hto. exists origin, dest, (bottom :: run), bottom. done.
  - intros (origin & dest' & run & bottom & Hj & [= <-] & Hne & _ & Hlast
            & Hfrom & Hrun & Hhead & Hto).
    rewrite bool_decide_false by done. rewrite bool_decide_false by done.
    rewrite Hj. simpl. rewrite Hfrom, Hrun. simpl.
    destruct run as [|b run]; simplify_eq/=. done.
Qed.

Lemma legal_move_bounds (g : Game.t) (src dst : nat) :
  legal_move g src dst →
  (src < length (Game.stacks g))%nat ∧ (dst < length (Game.stacks g))%nat.
Proof.
  intros (origin & dest & _ & _ & Hs & Hd & _).
  split; apply lookup_lt_is_Some; eauto.
Qed.

Lemma valid_rows_legal (g : Game.t) (dests : list nat) (src dst : nat) :
  (src, dst) ∈ valid_rows g dests ↔ dst ∈ dests ∧ legal_move g src dst.
Proof.
  unfold valid_rows. rewrite list_elem_of_bind. split.
  - intros (i & Hin & Hi).
    destruct (Game.stacks g !! i) as [dest|] eqn:Hdest; [|by apply elem_of_nil in Hin].
    destruct (Stack.locked dest) eqn:Hlock; [by apply elem_of_nil in Hin|].
    unfold valid_row in Hin. apply list_elem_of_fmap in Hin as (j & [= -> ->] & Hj).
    apply list_elem_of_filter in Hj as [Hv _].
    split; [done|]. by apply (move_valid_legal g i j dest).
  - intros [Hin Hlegal]. exists dst. split; [|done].
    pose proof Hlegal as (origin & dest & run & bottom & Hs & Hd & _ & Hlock & _).
    rewrite Hd, Hlock. unfold valid_row.
    apply list_elem_of_fmap. exists src. split; [done|].
    apply list_elem_of_filter. split.
    + by apply (move_valid_legal g dst src dest).
    + apply elem_of_seq. apply legal_move_bounds in Hlegal. lia.
Qed.

Lemma seq_strongly_sorted (a n : nat) : StronglySorted lt (seq a n).
Proof.
  revert a. induction n as [|n IH]; intros a; simpl; constructor; [apply IH|].
  apply Forall_forall. intros x Hx. apply elem_of_seq in Hx. lia.
Qed.

Lemma valid_row_sorted (g : Game.t) (i : nat) (js : list nat) :
  StronglySorted lt js → StronglySorted move_lt (valid_row g i js).
Proof.
  unfold valid_row. induction 1 as [|j js Hjs IH Hj]; [constructor|].
  rewrite filter_cons. case_decide; [|done].
  rewrite fmap_cons. constructor; [done|].
  apply Forall_forall. intros m Hm.
  apply list_elem_of_fmap in Hm as (j' & -> & Hj').
  apply list_elem_of_filter in Hj' as [_ Hj'].
  rewrite Forall_forall in Hj. right. simpl. split; [done|]. by apply Hj.
Qed.

Lemma valid_rows_sorted (g : Game.t) (dests : list nat) :
  StronglySorted lt dests → StronglySorted move_lt (valid_rows g dests).
Proof.
  induction 1 as [|i dests Hd IH Hi]; [constructor|].
  unfold valid_rows. rewrite bind_cons. apply StronglySorted_app.
  split_and!; [|destruct (Game.stacks g !! i) as [dest|]; [destruct (Stack.locked dest)|];
                 try constructor; apply valid_row_sorted, seq_strongly_sorted
               | exact IH].
  intros [s1 d1] [s2 d2] H1 H2.
  assert (d1 = i) as ->.
  { destruct (Game.stacks g !! i) as [dest|]; [|by apply elem_of_nil in H1].
    destruct (Stack.locked dest); [by apply elem_of_nil in H1|].
    unfold valid_row in H1. by apply list_elem_of_fmap in H1 as (j & [= -> ->] & _). }
  apply valid_rows_legal in H2 as [H2 _].
  rewrite Forall_forall in Hi. left. simpl. by apply Hi.
Qed.

(** What [enumerate_moves] returns, when it returns. *)
Lemma enumerate_moves_rows (g : Game.t) (moves : list (nat * nat)) :
  Game.enumerate_moves g = Ok moves →
  (∀ src dst, (src, dst) ∈ moves ↔ legal_move g src dst)
  ∧ StronglySorted move_lt moves.
Proof.
  intros H. apply moves_over_rows in H as ->. split.
  - intros src dst. rewrite valid_rows_legal. split; [by intros [_ ?]|].
    intros Hl. split; [|done]. apply elem_of_seq.
    apply legal_move_bounds in Hl. lia.
  - apply valid_rows_sorted, seq_strongly_sorted.
Qed.

Lemma move_valid_total (g : Game.t) (i j : nat) (dest : Stack.t) :
  Forall wf_stack (Game.stacks g) →
  Game.stacks g !! i = Some dest → (j < length (Game.stacks g))%nat →
  ∃ b, Game.move_valid g i j = Ok b.
Proof.
  intros Hwf Hi Hj. unfold Game.move_valid, Game.stack_at. rewrite Hi.
  case_bool_decide; [by eexists|]. case_bool_decide; [by eexists|].
  apply lookup_lt_is_Some in Hj as [origin Hj]. rewrite Hj. simpl.
  destruct (Stack.is_move_from_legal origin) eqn:Hfrom; [|by eexists].
  rewrite Forall_forall in Hwf.
  assert (Hwo : wf_stack origin) by (eapply Hwf, list_elem_of_lookup_2, Hj).
  assert (Hwd : wf_stack dest) by (eapply Hwf, list_elem_of_lookup_2, Hi).
  destruct (Stack.stack origin) as [l|] eqn:Hl.
  - destruct (which_cards_moving_two_chars origin) as [run Hrun];
      [apply Hwo | (intros E; unfold Stack.is_move_from_legal in Hfrom;
         rewrite E in Hfrom; by destruct (Stack.locked origin)) |].
    rewrite Hrun. simpl.
    destruct (which_cards_moving_suffix origin l run Hl Hrun) as (pre & -> & Hne).
    destruct run as [|bottom run]; [done|]. simpl.
    apply is_move_to_legal_total; [done|].
    destruct Hwo as [Hc _]. specialize (Hc _ Hl).
    apply Forall_app in Hc as [_ Hc]. by apply Forall_cons in Hc as [? _].
  - destruct Hwo as [_ Hm]. unfold Stack.is_move_from_legal in Hfrom.
    by rewrite (Hm Hl) in Hfrom.
Qed.

Lemma moves_to_total (g : Game.t) (i : nat) (dest : Stack.t) (js : list nat) :
  Forall wf_stack (Game.stacks g) → Game.stacks g !! i = Some dest →
  Forall (λ j, (j < length (Game.stacks g))%nat) js →
  ∃ row, Game.moves_to g i js = Ok row.
Proof.
  intros Hwf Hi. induction 1 as [|j js Hj _ [more IH]]; simpl; [by eexists|].
  destruct (move_valid_total g i j dest Hwf Hi Hj) as [b ->]. simpl.
  rewrite IH. simpl. by eexists.
Qed.

Lemma moves_over_total (g : Game.t) (dests : list nat) :
  Forall wf_stack (Game.stacks g) →
  Forall (λ i, (i < length (Game.stacks g))%nat) dests →
  ∃ ms, Game.moves_over g dests = Ok ms.
Proof.
  intros Hwf. induction 1 as [|i dests Hi _ [more IH]]; simpl; [by eexists|].
  unfold Game.stack_at. apply lookup_lt_is_Some in Hi as [dest Hi]. rewrite Hi. simpl.
  destruct (Stack.locked dest).
  - simpl. rewrite IH. simpl. by eexists.
  - destruct (moves_to_total g i dest (seq 0 (length (Game.stacks g))) Hwf Hi)
      as [row ->].
    + apply Forall_forall. intros j Hjs. apply elem_of_seq in Hjs. lia.
    + simpl. rewrite IH. simpl. by eexists.
Qed.

Lemma enumerate_moves_total (g : Game.t) :
  Forall wf_stack (Game.stacks g) → ∃ ms, Game.enumerate_moves g = Ok ms.
Proof.
  intros Hwf. apply moves_over_total; [done|].
  apply Forall_forall. intros j Hjs. apply elem_of_seq in Hjs. lia.
Qed.

(** C5. On a game whose stacks are well formed, [enumerate_moves] returns
    a list that holds the pair (source, destination) exactly when the two
    indices differ, the destination is not locked, the pair is not the
    inverse of the last recorded move, the source is a legal origin with a
    top run, and the destination accepts the bottom card of that run given
    as a single card; the list is in increasing order of destination, then
    of source. *)
Theorem enumerate_moves_exact (g : Game.t) :
  Forall wf_stack (Game.stacks g) →
  ∃ moves : list (nat * nat),
    Game.enumerate_moves g = Ok moves
    ∧ (∀ src dst, (src, dst) ∈ moves ↔ legal_move g src dst)
    ∧ StronglySorted move_lt moves.
Proof.
  intros Hwf. destruct (enumerate_moves_total g Hwf) as [moves Hm].
  exists moves. split; [done|]. by apply enumerate_moves_rows.
Qed.

Lemma enumerate_moves_exact_witness :
  legal_move before_collapse 1 0 ∧ ¬ legal_move before_collapse 0 1.
Proof.
  destruct (enumerate_moves_exact before_collapse before_collapse_wf)
    as (moves & Hmoves & Hiff & _).
  vm_compute in Hmoves. injection Hmoves as <-. split.
  - apply Hiff. left.
  - intros H. apply Hiff in H. apply list_elem_of_singleton in H. discriminate H.
Defined.

(** ** C8: a dead game *)

Lemma is_dead_ignores_depth :
  Game.enumerate_moves lone_stack = Ok []
  ∧ Game.depth lone_stack = 0
  ∧ Game.is_dead lone_stack = Ok true
  ∧ ¬ is_dead_with_depth.
Proof.
  split_and!; try reflexivity.
  intros H. specialize (H lone_stack [] eq_refl).
  destruct H as [H _]. specialize (H eq_refl). destruct H as [_ H].
  vm_compute in H. discriminate H.
Qed.

(** C8. [is_dead] answers true exactly when [enumerate_moves] returns the
    empty list, whatever the depth.  The depth is looked at by the caller:
    on a game with no move that is not complete, [solve] returns [None]
    exactly when the depth is beyond the cutoff or is not 0, and raises
    [Impossible to solve game] exactly when the depth is 0 and within the
    cutoff. *)
Theorem is_dead_no_moves (g : Game.t) (moves : list (nat * nat)) :
  Game.enumerate_moves g = Ok moves →
  (Game.is_dead g = Ok true ↔ moves = [])
  ∧ (Game.is_dead g = Ok false ↔ moves ≠ [])
  ∧ (moves = [] → Game.is_complete g = false →
     (Game.solve g = Ok None
      ↔ Game.max_depth g < Game.depth g ∨ Game.depth g ≠ 0)
     ∧ (Game.solve g = Raise (Failure "Impossible to solve game")
        ↔ Game.depth g <= Game.max_depth g ∧ Game.depth g = 0)).
Proof.
  intros Hm. split_and!.
  - unfold Game.is_dead. rewrite Hm. simpl.
    destruct moves; simpl; split; intros H; done.
  - unfold Game.is_dead. rewrite Hm. simpl.
    destruct moves; simpl; split; intros H; done.
  - intros -> Hc.
    assert (Hsolve : Game.solve g
      = if (Game.max_depth g <? Game.depth g)%Z then Ok None
        else if bool_decide (Game.depth g = 0)
             then Raise (Failure "Impossible to solve game")
             else Ok None).
    { unfold Game.solve, Game.is_dead. rewrite Hc, Hm. simpl.
      destruct (Z.ltb_spec (Game.max_depth g) (Game.depth g)); [done|].
      destruct (Z.ltb_spec 0 (Game.depth g)); simpl.
      - rewrite bool_decide_eq_false_2 by lia. done.
      - case_bool_decide; done. }
    rewrite Hsolve.
    destruct (Z.ltb_spec (Game.max_depth g) (Game.depth g)).
    + split; split; [by left|done|done|lia].
    + case_bool_decide as H0.
      * split; split; [done|lia|done|done].
      * split; split; [by right|done|done|intros [_ ?]; done].
Qed.

Lemma is_dead_no_moves_witness :
  Game.is_dead lone_stack = Ok true ∧ Game.depth lone_stack = 0
  ∧ Game.solve lone_stack = Raise (Failure "Impossible to solve game").
Proof.
  destruct (is_dead_no_moves lone_stack [] eq_refl) as (Hdead & _ & Hsolve).
  split_and!; [by apply Hdead | reflexivity |].
  apply (Hsolve eq_refl eq_refl). split; [vm_compute; discriminate | reflexivity].
Defined.

(** ** C4: a move keeps the number of cards *)

Lemma total_cards_cons (s : Stack.t) (ss : list Stack.t) :
  total_cards (s :: ss) = card_count s + total_cards ss.
Proof. reflexivity. Qed.

Lemma total_cards_insert (ss : list Stack.t) (i : nat) (old new : Stack.t) :
  ss !! i = Some old →
  total_cards (<[i := new]> ss) = total_cards ss - card_count old + card_count new.
Proof.
  revert i. induction ss as [|s ss IH]; intros [|i] H; try done.
  - injection H as ->. change (<[0%nat := new]> (old :: ss)) with (new :: ss).
    rewrite !total_cards_cons. lia.
  - change (<[S i := new]> (s :: ss)) with (s :: <[i := new]> ss).
    rewrite !total_cards_cons, (IH i H). lia.
Qed.

(** What leaves a stack and what stays make up what was there. *)
Lemma resolve_move_from_split (s s' : Stack.t) (l : list string) (m : nat)
    (moved : contents) :
  Stack.stack s = Cards l →
  Stack.resolve_move_from s m = Ok (s', moved) →
  ∃ pre mv,
    l = pre ++ mv ∧ mv ≠ [] ∧ moved = Cards mv
    ∧ s' = Stack.mk (Stack.card_type s) (Stack.locked s) (Cards pre)
             (Stack.past_cards s)
    ∧ (m = 0%nat → Stack.which_cards_moving s = Ok mv)
    ∧ (m ≠ 0%nat → length mv = Nat.min m (length l)).
Proof.
  intros Hl. unfold Stack.resolve_move_from.
  destruct (Stack.is_move_from_legal s) eqn:Hfrom; simpl; [|done].
  assert (Hne : l ≠ []).
  { intros ->. unfold Stack.is_move_from_legal in Hfrom. rewrite Hl in Hfrom.
    by destruct (Stack.locked s). }
  assert (Hkept : ∀ pre mv, l = pre ++ mv → mv ≠ [] →
    (if bool_decide (length mv = length l) then Cards []
     else Cards (take (length l - length mv) l)) = Cards pre).
  { intros pre mv -> Hmv. rewrite length_app. case_bool_decide as Hlen.
    - destruct pre; [done|]. simpl in Hlen. lia.
    - f_equal. replace (length pre + length mv - length mv)%nat with (length pre) by lia.
      by rewrite take_app_length. }
  case_bool_decide as Hm.
  - destruct (Stack.which_cards_moving s) as [run|e] eqn:Hrun; simpl; [|done].
    destruct (which_cards_moving_suffix s l run Hl Hrun) as (pre & Hsplit & Hmv).
    rewrite Hl. simpl. rewrite (Hkept pre run Hsplit Hmv).
    intros [= <- <-]. exists pre, run. split_and!; try done.
  - simpl. rewrite Hl. simpl.
    assert (Hsplit : l = take (length l - m) l ++ drop (length l - m) l)
      by (by rewrite take_drop).
    assert (Hlen : length (drop (length l - m) l) = Nat.min m (length l))
      by (rewrite length_drop; lia).
    assert (Hmv : drop (length l - m) l ≠ []).
    { intros E. rewrite E in Hlen. destruct l; simpl in *; [done|lia]. }
    rewrite (Hkept _ _ Hsplit Hmv).
    intros [= <- <-]. eexists _, _. split_and!; try done.
Qed.

Lemma card_count_after_append (s : Stack.t) (l mv : list string) :
  card_count (if Stack.collapses (l ++ mv)
              then Stack.mk (Stack.card_type s) true X
                     (Stack.PastStr (default "" (head (l ++ mv))))
              else Stack.mk (Stack.card_type s) (Stack.locked s)
                     (Cards (l ++ mv)) (Stack.past_cards s))
  = Z.of_nat (length l) + Z.of_nat (length mv).
Proof.
  destruct (Stack.collapses (l ++ mv)) eqn:Hc; unfold card_count; simpl.
  - apply collapses_four_faces in Hc as (c & _ & Hc).
    apply (f_equal length) in Hc. rewrite length_app in Hc. simpl in Hc. lia.
  - rewrite length_app. lia.
Qed.

Lemma legal_move_conserves (g : Game.t) (src dst : nat) :
  Forall marker_locked (Game.stacks g) → legal_move g src dst →
  ∃ ss', Game.apply_move (Game.stacks g) (src, dst) = Ok ss'
    ∧ length ss' = length (Game.stacks g)
    ∧ total_cards ss' = total_cards (Game.stacks g).
Proof.
  intros Hmark (origin & dest & run & bottom & Hs & Hd & Hne & Hlock & _
                & Hfrom & Hrun & Hhead & Hto).
  rewrite Forall_forall in Hmark.
  assert (∃ l, Stack.stack origin = Cards l) as [l Hl].
  { destruct (Stack.stack origin) eqn:E; [by eexists|].
    apply (Hmark origin) in E; [|by eapply list_elem_of_lookup_2].
    unfold Stack.is_move_from_legal in Hfrom. by rewrite E in Hfrom. }
  assert (∃ ld, Stack.stack dest = Cards ld) as [ld Hld].
  { destruct (Stack.stack dest) eqn:E; [by eexists|].
    apply (Hmark dest) in E; [congruence | by eapply list_elem_of_lookup_2]. }
  set (m := if bool_decide (Stack.card_type dest = Stack.freecell_kind)
            then 1%nat else 0%nat).
  assert (∃ r, Stack.resolve_move_from origin m = Ok r) as [[origin' moved] Hres].
  { unfold Stack.resolve_move_from. rewrite Hfrom. simpl.
    destruct (bool_decide (m = 0%nat)); [rewrite Hrun|]; simpl; by eexists. }
  destruct (resolve_move_from_split origin origin' l m moved Hl Hres)
    as (pre & mv & Hsplit & Hmv & -> & -> & Hm0 & Hm1).
  assert (Hlegal : Stack.is_move_to_legal dest (Cards mv) = Ok true).
  { subst m. case_bool_decide as Hcell.
    - (* a free cell takes the top card *)
      assert (Hlen : length mv = 1%nat).
      { rewrite Hm1 by done. destruct l; simpl; [by destruct pre|lia]. }
      destruct mv as [|c [|]]; try done.
      revert Hto. unfold Stack.is_move_to_legal. rewrite Hlock, Hcell. simpl.
      by destruct (py_truthy (Stack.stack dest)).
    - rewrite Hm0 in Hrun by done. simplify_eq.
      rewrite (is_move_to_legal_first dest bottom run); done. }
  destruct (resolve_move_to_legal dest mv Hlegal) as (ld' & Hld' & Hput).
  rewrite Hld in Hld'. simplify_eq.
  eexists. unfold Game.apply_move, Game.take_cards, Game.put_cards, Game.nth_stack.
  simpl. rewrite Hd, Hs. simpl. fold m. rewrite Hres. simpl.
  rewrite list_lookup_insert_ne, Hd by done. simpl. rewrite Hput. simpl.
  split; [done|]. split; [by rewrite !length_insert|].
  rewrite (total_cards_insert _ dst dest) by (by rewrite list_lookup_insert_ne).
  rewrite (total_cards_insert _ src origin) by done.
  rewrite card_count_after_append. unfold card_count. simpl.
  rewrite Hl, Hld, length_app. lia.
Qed.

Lemma child_stacks (g c : Game.t) (move : nat * nat) :
  Game.child g move = Ok c →
  Game.apply_move (Game.stacks g) move = Ok (Game.stacks c)
  ∧ Game.depth c = Game.depth g + 1
  ∧ Game.move_history c = Game.move_history g ++ [move].
Proof.
  unfold Game.child.
  destruct (Game.apply_move (Game.stacks g) move) as [ss|e]; simpl; [|done].
  unfold Game.get_score. rewrite andb_false_r.
  destruct (Game.score_loop 0 _) as [v|e]; simpl; [|intros [=]].
  intros [= <-]. simpl. done.
Qed.

Lemma solve_children (g : Game.t) (children : list Game.t) :
  Game.solve g = Ok (Some children) →
  ∃ moves, Game.enumerate_moves g = Ok moves
    ∧ traverse (Game.child g) moves = Ok children.
Proof.
  unfold Game.solve, Game.is_dead.
  destruct (Game.max_depth g <? Game.depth g)%Z; [done|].
  destruct (Game.is_complete g); [done|].
  destruct (Game.enumerate_moves g) as [moves|e]; simpl; [|done].
  destruct (bool_decide (length moves = 0%nat) && (0 <? Game.depth g)%Z); [done|].
  destruct (traverse (Game.child g) moves) as [results|e] eqn:Hres; simpl; [|done].
  destruct (bool_decide (Game.depth g = 0) && bool_decide (results = [])); [done|].
  destruct (bool_decide (results = [])); [done|].
  intros [= <-]. by exists moves.
Qed.

(** C4. On a game whose collapsed stacks are locked, every move that
    [enumerate_moves] lists can be carried out the way the expansion does
    it ([resolve_move_from] on the source, one card only towards a free
    cell, then [resolve_move_to] on the destination), and the number of
    cards of the board, the visible ones plus 4 for each collapsed stack,
    is the same afterwards; so it is the same in every child that [solve]
    returns. *)
Theorem move_conserves_cards (g : Game.t) (moves : list (nat * nat)) :
  Forall marker_locked (Game.stacks g) →
  Game.enumerate_moves g = Ok moves →
  (∀ move, move ∈ moves →
     ∃ ss', Game.apply_move (Game.stacks g) move = Ok ss'
       ∧ total_cards ss' = total_cards (Game.stacks g))
  ∧ (∀ children, Game.solve g = Ok (Some children) →
       Forall (λ c, total_cards (Game.stacks c) = total_cards (Game.stacks g))
         children).
Proof.
  intros Hmark Hmoves.
  assert (Hmove : ∀ move, move ∈ moves →
     ∃ ss', Game.apply_move (Game.stacks g) move = Ok ss'
       ∧ total_cards ss' = total_cards (Game.stacks g)).
  { intros [src dst] Hin.
    apply (enumerate_moves_rows g moves Hmoves) in Hin.
    destruct (legal_move_conserves g src dst Hmark Hin) as (ss' & ? & _ & ?).
    by exists ss'. }
  split; [done|].
  intros children Hsolve.
  destruct (solve_children g children Hsolve) as (moves' & Hm' & Hch).
  rewrite Hmoves in Hm'. injection Hm' as <-.
  apply traverse_Forall2 in Hch.
  apply Forall_forall. intros c Hc.
  apply list_elem_of_lookup_1 in Hc as [k Hk].
  destruct (Forall2_lookup_r _ _ _ _ _ Hch Hk) as (move & Hmv & Hchild).
  apply child_stacks in Hchild as (Happ & _).
  destruct (Hmove move) as (ss' & Happ' & Htot); [by eapply list_elem_of_lookup_2|].
  congruence.
Qed.

Lemma move_conserves_cards_witness :
  ∃ ss', Game.apply_move (Game.stacks before_collapse) (1%nat, 0%nat) = Ok ss'
    ∧ total_cards ss' = 4.
Proof.
  destruct (move_conserves_cards before_collapse [(1%nat, 0%nat)]) as [Hmove _].
  - repeat constructor; intros [=].
  - reflexivity.
  - destruct (Hmove (1%nat, 0%nat)) as (ss' & Happ & Htot); [left|].
    exists ss'. split; [exact Happ|]. rewrite Htot. reflexivity.
Defined.

(** ** C6: the score *)

(** The scan of [get_score] counts what the scan of [which_cards_moving]
    leaves behind. *)
Lemma trapped_below_take_below (below : list string) (upper : string) :
  Game.trapped_below below upper
  = (more <- Stack.take_below below upper ;;
     Ok (Z.of_nat (length below) - Z.of_nat (length more))).
Proof.
  revert upper. induction below as [|c rest IH]; intros upper; [done|].
  cbn [Game.trapped_below Stack.take_below].
  destruct (Stack.compatible c upper) as [[|]|e]; simpl; [|f_equal; lia|done].
  rewrite IH. destruct (Stack.take_below rest c) as [more|e]; simpl; [|done].
  f_equal. lia.
Qed.

Lemma num_cards_trapped_run (s : Stack.t) (l : list string) :
  Stack.stack s = Cards l → l ≠ [] →
  Game.num_cards_trapped l
  = (run <- Stack.which_cards_moving s ;;
     Ok (Z.of_nat (length l) - Z.of_nat (length run))).
Proof.
  intros Hs Hl. unfold Game.num_cards_trapped, Stack.which_cards_moving.
  rewrite Hs. assert (Hlen : length (reverse l) = length l) by apply length_reverse.
  destruct (reverse l) as [|top below] eqn:Hr.
  - destruct l; simpl in *; [done|lia].
  - rewrite trapped_below_take_below.
    destruct (Stack.take_below below top) as [more|e]; simpl; [|done].
    f_equal. rewrite length_reverse. simpl in *. lia.
Qed.

Lemma score_step_points (score : Z) (s : Stack.t) :
  Game.score_step score s = (p <- stack_points s ;; Ok (score + p)).
Proof.
  unfold Game.score_step, stack_points.
  destruct (Stack.is_complete s) eqn:Hc; [done|].
  destruct (Stack.card_type s) eqn:Ht; simpl; [|f_equal; lia].
  destruct (Stack.stack s) as [[|c l]|] eqn:Hs; simpl.
  - done.
  - unfold Stack.is_complete in Hc. rewrite Hs in Hc. rewrite Hc, andb_false_r.
    rewrite (num_cards_trapped_run s (c :: l)) by done.
    destruct (Stack.which_cards_moving s) as [run|e]; simpl; [|done].
    f_equal. simpl. lia.
  - unfold Stack.is_complete in Hc. by rewrite Hs in Hc.
Qed.

Lemma score_loop_points (score : Z) (ss : list Stack.t) :
  Game.score_loop score ss
  = (pts <- traverse stack_points ss ;; Ok (score + sum_points pts)).
Proof.
  revert score. induction ss as [|s ss IH]; intros score; simpl.
  - f_equal. unfold sum_points. simpl. lia.
  - rewrite score_step_points. destruct (stack_points s) as [p|e]; simpl; [|done].
    rewrite IH. destruct (traverse stack_points ss) as [pts|e]; simpl; [|done].
    f_equal. unfold sum_points. simpl. lia.
Qed.

Lemma stack_points_two_chars (s : Stack.t) :
  (Stack.card_type s = Stack.stack_kind → two_chars s) →
  ∃ p, stack_points s = Ok p.
Proof.
  intros Hs. unfold stack_points.
  destruct (Stack.is_complete s); [by eexists|].
  destruct (Stack.card_type s) eqn:Ht; [|by eexists].
  destruct (Stack.stack s) as [[|c l]|] eqn:Hl; [by eexists| |by eexists].
  destruct (which_cards_moving_two_chars s (Hs eq_refl)) as [run ->];
    [by rewrite Hl | by eexists].
Qed.

(** C6. The score [get_score] computes (asked to recompute, or with no
    score stored yet) is the sum over the stacks of: 20 for a complete
    stack; 10 for an empty unconstrained stack; 5 minus the number of cards
    below the top run for a non-empty incomplete unconstrained stack; 0 for
    an incomplete single-card stack.  It is stored in the game.  The sum is
    defined as soon as the unconstrained stacks hold two-character codes. *)
Theorem get_score_sum (g : Game.t) (override : bool) :
  (override = true ∨ Game.score g = 0) →
  (Forall (λ s, Stack.card_type s = Stack.stack_kind → two_chars s) (Game.stacks g)) →
  ∃ pts : list Z,
    traverse stack_points (Game.stacks g) = Ok pts
    ∧ Game.get_score g override
      = Ok (Game.set_score g (sum_points pts), sum_points pts).
Proof.
  intros Hov Hwf.
  destruct (traverse_ok stack_points (Game.stacks g)) as [pts Hpts].
  { eapply Forall_impl; [exact Hwf|]. intros s. apply stack_points_two_chars. }
  exists pts. split; [done|].
  unfold Game.get_score.
  assert (negb (Game.score g =? 0)%Z && negb override = false) as ->.
  { destruct Hov as [-> | ->]; [apply andb_false_r | done]. }
  rewrite score_loop_points, Hpts. simpl. done.
Qed.

Lemma get_score_sum_witness :
  Game.get_score before_collapse true = Ok (Game.set_score before_collapse 5, 5).
Proof.
  destruct (get_score_sum before_collapse true) as (pts & Hpts & Hscore).
  - left. reflexivity.
  - eapply Forall_impl; [exact before_collapse_wf|]. by intros s [? _] _.
  - vm_compute in Hpts. injection Hpts as <-. exact Hscore.
Defined.

(** ** C9 and C10: the search on a game decided at the root *)

(** The first turn of the loop of [global_solve] on a complete game: the
    replay of the empty move history raises. *)
Lemma search_complete_root (fuel : nat) (g : Game.t) (print_level : Z) :
  Game.depth g = 0 → Game.is_complete g = true → Game.move_history g = [] →
  ∃ e, Game.global_solve (S fuel) g print_level = Some (Raise e)
    ∧ (print_level <= 0 → e = Failure "No moves for successful game solve?").
Proof.
  intros Hd Hc Hh. unfold Game.global_solve. rewrite Hd. simpl.
  destruct (0 <? print_level)%Z eqn:Hp.
  - unfold Game.get_score.
    destruct (negb (Game.score g =? 0)%Z && negb false); simpl.
    + rewrite Hc. unfold Game.play_game. rewrite Hh. simpl.
      eexists. split; [done|]. lia.
    + destruct (Game.score_loop 0 (Game.stacks g)) as [v|e]; simpl.
      * change (Game.is_complete (Game.set_score g v)) with (Game.is_complete g).
        rewrite Hc. unfold Game.play_game. simpl. rewrite Hh. simpl.
        eexists. split; [done|]. lia.
      * eexists. split; [done|]. lia.
  - rewrite Hc. unfold Game.play_game. rewrite Hh. simpl. by eexists.
Qed.

(** The first turn of the loop on a game within its cutoff, not complete
    and without a move: [solve] raises. *)
Lemma solve_stuck_root (g : Game.t) :
  Game.depth g = 0 → 0 <= Game.max_depth g → Game.is_complete g = false →
  Game.enumerate_moves g = Ok [] →
  Game.solve g = Raise (Failure "Impossible to solve game").
Proof.
  intros Hd Hmax Hc Hm. unfold Game.solve, Game.is_dead.
  rewrite Hc, Hm, Hd. simpl.
  destruct (Z.ltb_spec (Game.max_depth g) 0); [lia|]. reflexivity.
Qed.

(** Storing the score changes no move. *)
Lemma enumerate_moves_set_score (g : Game.t) (v : Z) :
  Game.enumerate_moves (Game.set_score g v) = Game.enumerate_moves g.
Proof.
  assert (Hrow : ∀ i js, Game.moves_to (Game.set_score g v) i js = Game.moves_to g i js).
  { intros i js. induction js as [|j js IH]; [done|]. simpl. by rewrite IH. }
  assert (Hall : ∀ dests, Game.moves_over (Game.set_score g v) dests
                          = Game.moves_over g dests).
  { induction dests as [|i dests IH]; [done|]. simpl. by rewrite IH, Hrow. }
  apply Hall.
Qed.

Lemma search_stuck_root (fuel : nat) (g : Game.t) (print_level : Z) :
  Game.depth g = 0 → 0 <= Game.max_depth g → Game.is_complete g = false →
  Game.enumerate_moves g = Ok [] →
  ∃ e, Game.global_solve (S fuel) g print_level = Some (Raise e).
Proof.
  intros Hd Hmax Hc Hm. unfold Game.global_solve. rewrite Hd. simpl.
  destruct (0 <? print_level)%Z.
  - unfold Game.get_score.
    destruct (negb (Game.score g =? 0)%Z && negb false); simpl.
    + rewrite Hc, (solve_stuck_root g) by done. by eexists.
    + destruct (Game.score_loop 0 (Game.stacks g)) as [v|e]; simpl; [|by eexists].
      change (Game.is_complete (Game.set_score g v)) with (Game.is_complete g).
      rewrite Hc.
      rewrite (solve_stuck_root (Game.set_score g v));
        [by eexists|done|done|done|by rewrite enumerate_moves_set_score].
  - rewrite Hc, (solve_stuck_root g) by done. by eexists.
Qed.

Lemma is_complete_finished (g : Game.t) :
  Game.is_complete g = true ↔ finished_stacks g = 8%nat.
Proof.
  unfold Game.is_complete, finished_stacks.
  assert (H : ∀ ss, foldr Z.add 0 (map (λ s, Z.b2z (Stack.is_complete s)) ss)
                = Z.of_nat (length (filter (λ s, Stack.is_complete s = true) ss))).
  { induction ss as [|s ss IH]; [done|]. rewrite filter_cons.
    cbn [map foldr]. rewrite IH.
    destruct (Stack.is_complete s) eqn:Hs.
    - rewrite decide_True by done. cbn [length Z.b2z]. lia.
    - rewrite decide_False by done. cbn [Z.b2z]. lia. }
  rewrite H. rewrite Z.eqb_eq. lia.
Qed.

Lemma exact_setup_fields (g0 g : Game.t) (h : string) :
  Game.exact_setup g0 h = Ok g →
  Game.depth g = Game.depth g0 ∧ Game.move_history g = Game.move_history g0
  ∧ Game.max_depth g = Game.max_depth g0.
Proof.
  unfold Game.exact_setup. destruct (traverse Game.decode_stack _); simpl; [|done].
  by intros [= <-].
Qed.

(** *** C9: a finished game *)

Lemma finished_input_decodes :
  Game.exact_setup (Game.init 9 1 100) finished_input = Ok finished_game.
Proof. vm_compute. reflexivity. Qed.

Lemma solved_input_raises_instead :
  Game.exact_setup (Game.init 9 1 100) finished_input = Ok finished_game
  ∧ Game.is_complete finished_game = true
  ∧ Game.global_solve 1 finished_game (-1)
    = Some (Raise (Failure "No moves for successful game solve?"))
  ∧ ¬ solved_input_returns_empty.
Proof.
  split_and!; [exact finished_input_decodes|reflexivity|reflexivity|].
  intros H.
  destruct (H finished_input finished_game finished_input_decodes eq_refl)
    as [_ [fuel Hfuel]].
  destruct fuel as [|fuel]; [discriminate Hfuel|].
  destruct (search_complete_root fuel finished_game (-1)) as (e & He & _);
    try reflexivity.
  rewrite He in Hfuel. discriminate Hfuel.
Qed.

(** C9. On an input that decodes, in a fresh game, to a board with its
    eight stacks done, [is_complete] is true and [global_solve] returns no
    list: it raises, through [play_game] on the empty move history with
    the message of that method when nothing is printed.  This is not the
    outcome of an unsolvable game, which is the empty list. *)
Theorem solved_input_raises (g0 g : Game.t) (h : string) :
  Game.depth g0 = 0 → Game.move_history g0 = [] →
  Game.exact_setup g0 h = Ok g →
  finished_stacks g = 8%nat →
  Game.is_complete g = true
  ∧ ∀ (fuel : nat) (print_level : Z),
      ∃ e, Game.global_solve (S fuel) g print_level = Some (Raise e)
        ∧ (print_level <= 0 → e = Failure "No moves for successful game solve?")
        ∧ Game.global_solve (S fuel) g print_level ≠ Some (Ok []).
Proof.
  intros Hd Hh Hset Hfin.
  apply exact_setup_fields in Hset as (Hd' & Hh' & _).
  assert (Hc : Game.is_complete g = true) by (by apply is_complete_finished).
  split; [done|]. intros fuel pl.
  destruct (search_complete_root fuel g pl) as (e & He & Hmsg); try congruence.
  exists e. split_and!; [done|done|]. rewrite He. discriminate.
Qed.

Lemma solved_input_raises_witness :
  Game.is_complete finished_game = true
  ∧ Game.global_solve 1 finished_game (-1)
    = Some (Raise (Failure "No moves for successful game solve?")).
Proof.
  destruct (solved_input_raises (Game.init 9 1 100) finished_game finished_input)
    as [Hc Hs]; try reflexivity.
  split; [exact Hc|].
  destruct (Hs 0%nat (-1)) as (e & He & Hmsg & _).
  rewrite He, Hmsg; [reflexivity|lia].
Defined.

(** *** C10: a root without a move *)

Lemma stuck_root_beyond_cutoff :
  Game.depth shallow_game = 0
  ∧ Game.is_complete shallow_game = false
  ∧ Game.enumerate_moves shallow_game = Ok []
  ∧ Game.solve shallow_game = Ok None
  ∧ Game.global_solve 2 shallow_game (-1) = Some (Ok [])
  ∧ ¬ stuck_root_raises.
Proof.
  split_and!; try reflexivity.
  intros H. destruct (H shallow_game eq_refl eq_refl eq_refl) as [[e He] Hs].
  - vm_compute in He. discriminate He.
Qed.

(** C10. At the root (depth 0), with a cutoff that is not negative, a game
    that is not complete and has no legal move makes [solve] raise
    instead of returning [None] or an empty list, and [global_solve]
    raises with it: the search does not come to its empty-list outcome. *)
Theorem stuck_root_within_cutoff (g : Game.t) :
  Game.depth g = 0 → 0 <= Game.max_depth g →
  Game.is_complete g = false →
  Game.enumerate_moves g = Ok [] →
  Game.solve g = Raise (Failure "Impossible to solve game")
  ∧ ∀ (fuel : nat) (print_level : Z),
      (∃ e, Game.global_solve (S fuel) g print_level = Some (Raise e))
      ∧ Game.global_solve (S fuel) g print_level ≠ Some (Ok []).
Proof.
  intros Hd Hmax Hc Hm. split; [by apply solve_stuck_root|].
  intros fuel pl.
  destruct (search_stuck_root fuel g pl Hd Hmax Hc Hm) as [e He].
  split; [by exists e|]. rewrite He. discriminate.
Qed.

Lemma stuck_root_within_cutoff_witness :
  Game.solve lone_stack = Raise (Failure "Impossible to solve game").
Proof.
  apply (stuck_root_within_cutoff lone_stack); [reflexivity|vm_compute; discriminate|reflexivity|reflexivity].
Defined.

(** ** C7: decoding the hash of a game *)

(** C7. The game decoded from [SHHHHHH/FHH/] has one child, in which the
    stack has collapsed; the collapse stores the card code in
    [past_cards], the hash of the child writes it between the brackets,
    and [exact_setup], which reads an integer there, raises [ValueError]
    on that hash: no game comes back to compare hashes with. *)
Theorem exact_setup_collapsed_hash :
  Game.exact_setup (Game.init 1 1 100) "SHHHHHH/FHH/" = Ok before_collapse
  ∧ Game.solve before_collapse = Ok (Some [collapsed_game])
  ∧ Stack.resolve_move_to three_faces (Cards ["HH"]) = Ok collapsed_stack
  ∧ Game.hash collapsed_game = "F/SX[HH]/"
  ∧ py_int "HH" = Raise ValueError
  ∧ Game.exact_setup (Game.init 1 1 100) (Game.hash collapsed_game)
    = Raise ValueError.
Proof. split_and!; vm_compute; reflexivity. Qed.

(** *** The round trip on a game without a collapsed stack *)

Lemma valid_card_code (c : string) : valid_card c → card_code c.
Proof.
  unfold valid_card. intros H.
  assert (Hall : Forall (λ c, ∃ a b, c = String a (String b "")
                     ∧ bool_decide (a ≠ "/"%char ∧ b ≠ "/"%char ∧ a ≠ "X"%char) = true)
            (Game.face_cards ++ Game.number_cards)).
  { vm_compute. repeat constructor; eexists _, _; split; reflexivity. }
  rewrite Forall_forall in Hall. destruct (Hall c H) as (a & b & -> & Hab).
  apply bool_decide_eq_true in Hab. by exists a, b.
Qed.

Lemma append_cons (c : ascii) (s1 s2 : string) :
  String c s1 +:+ s2 = String c (s1 +:+ s2).
Proof. reflexivity. Qed.

Lemma append_empty_l (s : string) : "" +:+ s = s.
Proof. reflexivity. Qed.

Lemma append_empty_r (s : string) : s +:+ "" = s.
Proof. induction s as [|c s IH]; [done|]. by rewrite append_cons, IH. Qed.

Lemma concat_empty_cons (x : string) (xs : list string) :
  String.concat "" (x :: xs) = x +:+ String.concat "" xs.
Proof.
  destruct xs as [|y ys]; [symmetry; apply append_empty_r | reflexivity].
Qed.

Lemma split_slash_token (tok rest : string) :
  no_slash tok →
  split_slash ((tok +:+ "/") +:+ rest) = tok :: split_slash rest.
Proof.
  induction tok as [|c tok IH]; intros Hns.
  - reflexivity.
  - destruct Hns as [Hc Htok]. rewrite !append_cons. simpl.
    rewrite bool_decide_false by done. by rewrite IH.
Qed.

Lemma split_slash_chunks (toks : list string) :
  Forall no_slash toks →
  split_slash (String.concat "" (map (λ t, t +:+ "/") toks)) = toks ++ [""].
Proof.
  induction 1 as [|tok toks Htok _ IH]; [done|].
  cbn [map]. rewrite concat_empty_cons, split_slash_token by done.
  by rewrite IH.
Qed.

Lemma substring_whole (s : string) : String.substring 0 (String.length s) s = s.
Proof. induction s as [|c s IH]; simpl; [done|]. f_equal. exact IH. Qed.

Lemma pairs_concat (l : list string) :
  Forall card_code l → pairs (String.concat "" l) = l.
Proof.
  induction 1 as [|c l (a & b & -> & _) _ IH]; [done|].
  rewrite concat_empty_cons, !append_cons, append_empty_l. simpl. by rewrite IH.
Qed.

Lemma no_slash_concat (l : list string) :
  Forall card_code l → no_slash (String.concat "" l).
Proof.
  induction 1 as [|c l (a & b & -> & Ha & Hb & _) _ IH]; [done|].
  rewrite concat_empty_cons, !append_cons, append_empty_l. simpl. done.
Qed.

Lemma hash_open (s : Stack.t) (l : list string) :
  Stack.stack s = Cards l →
  Stack.hash s
  = String (match Stack.card_type s with
            | Stack.stack_kind => "S" | Stack.freecell_kind => "F"
            end)%char (String.concat "" l).
Proof.
  intros Hl. unfold Stack.hash, Stack.type_str. rewrite Hl.
  by destruct (Stack.card_type s).
Qed.

Lemma prefix_marker (a : ascii) (rest : string) :
  a ≠ "X"%char → String.prefix "X" (String a rest) = false.
Proof.
  intros Ha. cbn [String.prefix]. destruct (ascii_dec "X" a); [by subst|done].
Qed.

Lemma decode_stack_hash (s : Stack.t) :
  open_stack s → Game.decode_stack (Stack.hash s) = Ok (decoded s).
Proof.
  intros (l & Hl & Hcards). rewrite (hash_open s l Hl).
  unfold Game.decode_stack, decoded. rewrite Hl.
  set (ty := match Stack.card_type s with
             | Stack.stack_kind => "S"%char | Stack.freecell_kind => "F"%char
             end).
  assert (Hty : (if bool_decide (String.get 0 (String ty (String.concat "" l)) = Some "S"%char)
                 then Stack.stack_kind else Stack.freecell_kind) = Stack.card_type s).
  { subst ty. by destruct (Stack.card_type s). }
  rewrite Hty.
  assert (Hbody : String.substring 1 (String.length (String ty (String.concat "" l)) - 1)
                    (String ty (String.concat "" l)) = String.concat "" l).
  { simpl. rewrite Nat.sub_0_r. apply substring_whole. }
  rewrite Hbody.
  destruct Hcards as [|c l Hc Hl']; [reflexivity|].
  rewrite pairs_concat by (by constructor).
  destruct Hc as (a & b & -> & _ & _ & Ha).
  rewrite concat_empty_cons, !append_cons, append_empty_l.
  rewrite bool_decide_false by (simpl; lia).
  rewrite prefix_marker by done. reflexivity.
Qed.

Lemma hash_decoded (s : Stack.t) :
  open_stack s → Stack.hash (decoded s) = Stack.hash s.
Proof. intros (l & Hl & _). unfold Stack.hash, decoded, Stack.type_str. simpl. by rewrite Hl. Qed.

Lemma hash_token (s : Stack.t) :
  open_stack s → no_slash (Stack.hash s) ∧ String.length (Stack.hash s) ≠ 0%nat.
Proof.
  intros (l & Hl & Hcards). rewrite (hash_open s l Hl). split; [|done].
  split; [by destruct (Stack.card_type s)|by apply no_slash_concat].
Qed.

(** On a game whose stacks all hold card codes, [exact_setup] decodes the
    hash into a game with the same hash: the stacks of the game in the
    order of their hash strings. *)
Lemma exact_setup_hash_open (g0 g : Game.t) :
  Forall open_stack (Game.stacks g) →
  ∃ g', Game.exact_setup g0 (Game.hash g) = Ok g'
    ∧ Game.stacks g' ≡ₚ decoded <$> Game.stacks g
    ∧ Game.hash g' = Game.hash g.
Proof.
  intros Hopen.
  pose proof (merge_sort_Permutation str_le (Game.stack_chunks g)) as Hperm.
  unfold Game.stack_chunks in Hperm at 2.
  apply Permutation_map_inv in Hperm as (ss & Hss & Hp).
  assert (Hopen' : Forall open_stack ss) by (by rewrite <- Hp).
  assert (Hsorted : Game.hash g
    = String.concat "" (map (λ t, t +:+ "/") (map Stack.hash ss))).
  { unfold Game.hash. rewrite Hss. f_equal. by rewrite map_map. }
  assert (Htoks : filter (λ x, String.length x ≠ 0%nat) (split_slash (Game.hash g))
                  = map Stack.hash ss).
  { rewrite Hsorted, split_slash_chunks.
    - rewrite filter_app. simpl. rewrite filter_cons, decide_False by (simpl; lia).
      rewrite filter_nil, app_nil_r.
      clear -Hopen'. induction Hopen' as [|s ss Hs _ IH]; [done|].
      cbn [map]. rewrite filter_cons, decide_True by (by apply hash_token).
      by rewrite IH.
    - apply Forall_forall. intros t Ht. apply list_elem_of_In, in_map_iff in Ht
        as (s & <- & Hs). rewrite Forall_forall in Hopen'.
      by apply hash_token, Hopen', list_elem_of_In. }
  assert (Hdec : traverse Game.decode_stack (map Stack.hash ss) = Ok (decoded <$> ss)).
  { clear -Hopen'. induction Hopen' as [|s ss Hs _ IH]; [done|].
    simpl. rewrite (decode_stack_hash s Hs). simpl. rewrite IH. done. }
  exists (Game.set_stacks g0 (decoded <$> ss)).
  unfold Game.exact_setup. rewrite Htoks, Hdec. simpl.
  split; [done|]. split; [by rewrite Hp|].
  unfold Game.hash. f_equal. rewrite Hss. symmetry.
  apply sorted_strings_unique.
  - rewrite <- Hss. apply Sorted_merge_sort, _.
  - unfold Game.stack_chunks. simpl.
    clear -Hopen'. induction Hopen' as [|s ss Hs _ IH]; [done|].
    simpl. rewrite hash_decoded by done. by constructor.
Qed.

(** * Further properties of the code *)

(** ** What a legal move does to the stacks *)

Lemma legal_move_applied (g : Game.t) (src dst : nat) :
  Forall marker_locked (Game.stacks g) → legal_move g src dst →
  ∃ origin dest pre mv ld,
    Game.stacks g !! src = Some origin
    ∧ Game.stacks g !! dst = Some dest
    ∧ Stack.stack origin = Cards (pre ++ mv) ∧ mv ≠ []
    ∧ Stack.stack dest = Cards ld
    ∧ (Stack.card_type dest = Stack.freecell_kind → length mv = 1%nat)
    ∧ (Stack.card_type dest = Stack.stack_kind →
       Stack.which_cards_moving origin = Ok mv)
    ∧ Game.apply_move (Game.stacks g) (src, dst)
      = Ok (<[dst := after_append dest (ld ++ mv)]>
              (<[src := after_take origin pre]> (Game.stacks g))).
Proof.
  intros Hmark (origin & dest & run & bottom & Hs & Hd & Hne & Hlock & _
                & Hfrom & Hrun & Hhead & Hto).
  rewrite Forall_forall in Hmark.
  assert (∃ l, Stack.stack origin = Cards l) as [l Hl].
  { destruct (Stack.stack origin) eqn:E; [by eexists|].
    apply (Hmark origin) in E; [|by eapply list_elem_of_lookup_2].
    unfold Stack.is_move_from_legal in Hfrom. by rewrite E in Hfrom. }
  assert (∃ ld, Stack.stack dest = Cards ld) as [ld Hld].
  { destruct (Stack.stack dest) eqn:E; [by eexists|].
    apply (Hmark dest) in E; [congruence | by eapply list_elem_of_lookup_2]. }
  set (m := if bool_decide (Stack.card_type dest = Stack.freecell_kind)
            then 1%nat else 0%nat).
  assert (∃ r, Stack.resolve_move_from origin m = Ok r) as [[origin' moved] Hres].
  { unfold Stack.resolve_move_from. rewrite Hfrom. simpl.
    destruct (bool_decide (m = 0%nat)); [rewrite Hrun|]; simpl; by eexists. }
  destruct (resolve_move_from_split origin origin' l m moved Hl Hres)
    as (pre & mv & Hsplit & Hmv & -> & -> & Hm0 & Hm1).
  assert (Hcell : Stack.card_type dest = Stack.freecell_kind → length mv = 1%nat).
  { intros Hcell. subst m. rewrite bool_decide_true in Hm1 by done.
    rewrite Hm1 by done. destruct l; simpl; [by destruct pre|lia]. }
  assert (Hpile : Stack.card_type dest = Stack.stack_kind →
                  Stack.which_cards_moving origin = Ok mv).
  { intros Hpile. apply Hm0. subst m. rewrite bool_decide_false; [done|].
    rewrite Hpile. done. }
  assert (Hlegal : Stack.is_move_to_legal dest (Cards mv) = Ok true).
  { destruct (Stack.card_type dest) eqn:Hty.
    - rewrite Hpile in Hrun by done. simplify_eq.
      rewrite (is_move_to_legal_first dest bottom run); [done|done|].
      rewrite Hty. done.
    - specialize (Hcell eq_refl). destruct mv as [|c [|]]; try done.
      revert Hto. unfold Stack.is_move_to_legal. rewrite Hlock, Hty. simpl.
      by destruct (py_truthy (Stack.stack dest)). }
  destruct (resolve_move_to_legal dest mv Hlegal) as (ld' & Hld' & Hput).
  rewrite Hld in Hld'. simplify_eq.
  exists origin, dest, pre, mv, ld'. split_and!; try done.
  unfold Game.apply_move, Game.take_cards, Game.put_cards, Game.nth_stack.
  simpl. rewrite Hd, Hs. simpl. fold m. rewrite Hres. simpl.
  rewrite list_lookup_insert_ne, Hd by done. simpl. rewrite Hput. simpl.
  reflexivity.
Qed.

Lemma after_take_wf (origin : Stack.t) (pre mv : list string) :
  wf_stack origin → Stack.stack origin = Cards (pre ++ mv) →
  wf_stack (after_take origin pre).
Proof.
  intros [Hchars _] Hl. split; [|done].
  intros l [= <-]. specialize (Hchars _ Hl). by apply Forall_app in Hchars as [? _].
Qed.

Lemma after_append_wf (dest : Stack.t) (l : list string) :
  Forall (λ c, String.length c = 2%nat) l → wf_stack (after_append dest l).
Proof.
  intros Hl. unfold after_append. destruct (Stack.collapses l); split; simpl;
    try done. by intros l' [= <-].
Qed.

(** A legal move keeps the stacks well formed. *)
Lemma legal_move_wf (g : Game.t) (src dst : nat) (ss' : list Stack.t) :
  Forall wf_stack (Game.stacks g) → legal_move g src dst →
  Game.apply_move (Game.stacks g) (src, dst) = Ok ss' →
  Forall wf_stack ss' ∧ length ss' = length (Game.stacks g).
Proof.
  intros Hwf Hlegal Happ.
  destruct (legal_move_applied g src dst) as
    (origin & dest & pre & mv & ld & Hs & Hd & Hl & _ & Hld & _ & _ & Happ');
    [eapply Forall_impl; [exact Hwf|]; by intros s [_ ?] | done |].
  rewrite Happ' in Happ. injection Happ as <-.
  rewrite Forall_forall in Hwf.
  assert (Hwo : wf_stack origin) by (eapply Hwf, list_elem_of_lookup_2, Hs).
  assert (Hwd : wf_stack dest) by (eapply Hwf, list_elem_of_lookup_2, Hd).
  split; [|by rewrite !length_insert].
  apply Forall_insert; [apply Forall_insert; [by apply Forall_forall|]|].
  - by eapply after_take_wf.
  - apply after_append_wf. apply Forall_app. split.
    + by apply Hwd.
    + destruct Hwo as [Hc _]. specialize (Hc _ Hl). by apply Forall_app in Hc as [_ ?].
Qed.

Lemma score_loop_total (ss : list Stack.t) :
  Forall wf_stack ss → ∃ v, Game.score_loop 0 ss = Ok v.
Proof.
  intros Hwf. rewrite score_loop_points.
  destruct (traverse_ok stack_points ss) as [pts ->]; [|by eexists].
  eapply Forall_impl; [exact Hwf|]. intros s [Hs _].
  by apply stack_points_two_chars.
Qed.

(** The child [solve] builds for a legal move. *)
Lemma child_of_legal_move (g : Game.t) (src dst : nat) :
  Forall wf_stack (Game.stacks g) → legal_move g src dst →
  ∃ c ss' v,
    Game.child g (src, dst) = Ok c
    ∧ Game.apply_move (Game.stacks g) (src, dst) = Ok ss'
    ∧ Game.score_loop 0 ss' = Ok v
    ∧ c = Game.mk ss' (Game.card_stacks g) (Game.depth g + 1) (Game.max_depth g)
            (Game.move_history g ++ [(src, dst)]) v
    ∧ Forall wf_stack ss'.
Proof.
  intros Hwf Hlegal.
  destruct (legal_move_applied g src dst) as
    (origin & dest & pre & mv & ld & _ & _ & _ & _ & _ & _ & _ & Happ);
    [eapply Forall_impl; [exact Hwf|]; by intros s [_ ?] | done |].
  destruct (legal_move_wf g src dst _ Hwf Hlegal Happ) as [Hwf' _].
  destruct (score_loop_total _ Hwf') as [v Hv].
  eexists _, _, v. split_and!; [|exact Happ|exact Hv|reflexivity|exact Hwf'].
  unfold Game.child. rewrite Happ. simpl.
  unfold Game.get_score. rewrite andb_false_r. simpl. rewrite Hv. reflexivity.
Qed.

(** ** The outcomes of [solve] *)

Lemma traverse_Forall2_ok {A B : Type} (f : A → result B) (P : A → B → Prop)
    (l : list A) :
  Forall (λ a, ∃ b, f a = Ok b ∧ P a b) l →
  ∃ bs, traverse f l = Ok bs ∧ Forall2 P l bs.
Proof.
  induction 1 as [|a l (b & Hb & HP) _ (bs & Hbs & HF)]; simpl.
  - exists []. split; [done|constructor].
  - rewrite Hb, Hbs. simpl. exists (b :: bs). split; [done|by constructor].
Qed.

Lemma children_of_moves (g : Game.t) (moves : list (nat * nat)) :
  Forall wf_stack (Game.stacks g) → Game.enumerate_moves g = Ok moves →
  ∃ children, traverse (Game.child g) moves = Ok children
    ∧ Forall2 (child_of g) moves children.
Proof.
  intros Hwf Hmoves. apply traverse_Forall2_ok.
  apply Forall_forall. intros [src dst] Hin.
  apply (enumerate_moves_rows g moves Hmoves) in Hin.
  destruct (child_of_legal_move g src dst Hwf Hin)
    as (c & ss' & v & Hc & Happ & Hv & -> & Hwf').
  eexists. split; [exact Hc|].
  destruct (legal_move_wf g src dst ss' Hwf Hin Happ) as [_ Hlen].
  unfold child_of. simpl. done.
Qed.

(** X1. On a game whose stacks are well formed [solve] never tries an
    illegal move.  Beyond the cutoff it returns [None]; within it, it
    raises on a complete game; on a game without a move it returns [None]
    unless the depth is 0, where it raises; otherwise it returns one child
    for each move of [enumerate_moves], in the same order, each one level
    deeper, with the move appended to the history, the score of its own
    stacks stored, and its stacks well formed. *)
Theorem solve_outcomes (g : Game.t) :
  Forall wf_stack (Game.stacks g) →
  ∃ moves : list (nat * nat),
    Game.enumerate_moves g = Ok moves
    ∧ (Game.max_depth g < Game.depth g → Game.solve g = Ok None)
    ∧ (Game.depth g <= Game.max_depth g → Game.is_complete g = true →
       Game.solve g = Raise (Failure "Trying to solve complete game."))
    ∧ (Game.depth g <= Game.max_depth g → Game.is_complete g = false →
       moves = [] →
       Game.solve g = if bool_decide (Game.depth g = 0)
                      then Raise (Failure "Impossible to solve game")
                      else Ok None)
    ∧ (Game.depth g <= Game.max_depth g → Game.is_complete g = false →
       moves ≠ [] →
       ∃ children, Game.solve g = Ok (Some children)
         ∧ Forall2 (child_of g) moves children).
Proof.
  intros Hwf. destruct (enumerate_moves_total g Hwf) as [moves Hmoves].
  exists moves. split; [done|].
  unfold Game.solve, Game.is_dead. rewrite Hmoves. simpl. split_and!.
  - intros Hd. by destruct (Z.ltb_spec (Game.max_depth g) (Game.depth g)); [|lia].
  - intros Hd ->. by destruct (Z.ltb_spec (Game.max_depth g) (Game.depth g)); [lia|].
  - intros Hd -> ->. simpl.
    destruct (Z.ltb_spec (Game.max_depth g) (Game.depth g)); [lia|].
    destruct (Z.ltb_spec 0 (Game.depth g)); simpl.
    + rewrite bool_decide_false by lia. done.
    + case_bool_decide; reflexivity.
  - intros Hd -> Hne.
    destruct (Z.ltb_spec (Game.max_depth g) (Game.depth g)); [lia|].
    rewrite bool_decide_false by (destruct moves; simpl; [done|lia]). simpl.
    destruct (children_of_moves g moves Hwf Hmoves) as (children & -> & HF).
    simpl. exists children.
    assert (children ≠ []) by (destruct HF; done).
    rewrite (bool_decide_false (children = [])) by done.
    rewrite andb_false_r. done.
Qed.

(** ** Replaying moves *)

Lemma apply_moves_app (ss : list Stack.t) (ms1 ms2 : list (nat * nat)) :
  apply_moves ss (ms1 ++ ms2) = (ss' <- apply_moves ss ms1 ;; apply_moves ss' ms2).
Proof.
  revert ss. induction ms1 as [|m ms1 IH]; intros ss; simpl; [done|].
  destruct (Game.apply_move ss m) as [ss'|e]; simpl; [apply IH|done].
Qed.

Lemma take_cards_lookups (ss ss1 : list Stack.t) (i j : nat) (cards : contents) :
  Game.take_cards ss i j = Ok (ss1, cards) →
  ∃ origin dest, ss1 !! i = Some origin ∧ ss !! j = Some dest ∧ length ss1 = length ss.
Proof.
  unfold Game.take_cards, Game.nth_stack.
  destruct (ss !! j) as [dest|] eqn:Hj; simpl; [|done].
  destruct (ss !! i) as [origin|] eqn:Hi; simpl; [|done].
  destruct (Stack.resolve_move_from origin _) as [[origin' moved]|e]; simpl; [|done].
  intros [= <- <-]. exists origin', dest. split_and!; [|done|by rewrite length_insert].
  apply list_lookup_insert_eq. by eapply lookup_lt_Some.
Qed.

(** [play_game] goes through the moves as [apply_moves] does, and fails
    where it fails. *)
Lemma play_moves_apply (ss : list Stack.t) (moves : list (nat * nat)) :
  match Game.play_moves ss moves with
  | Ok (ss', fixed) =>
      apply_moves ss moves = Ok ss' ∧ move_of <$> fixed = moves
  | Raise e => apply_moves ss moves = Raise e
  end.
Proof.
  revert ss. induction moves as [|[i j] moves IH]; intros ss; simpl; [done|].
  unfold Game.apply_move. simpl.
  destruct (Game.take_cards ss i j) as [[ss1 cards]|e] eqn:Htake; simpl; [|done].
  destruct (take_cards_lookups ss ss1 i j cards Htake) as (origin & dest & Hi & Hj & Hlen).
  unfold Game.nth_stack at 1. rewrite Hi. simpl.
  assert (∃ dest1, ss1 !! j = Some dest1) as [dest1 Hj1].
  { apply lookup_lt_is_Some. rewrite Hlen. by eapply lookup_lt_Some. }
  unfold Game.nth_stack at 1. rewrite Hj1. simpl.
  destruct (Game.put_cards ss1 j cards) as [ss2|e]; simpl; [|done].
  specialize (IH ss2). destruct (Game.play_moves ss2 moves) as [[ss' fixed]|e]; simpl.
  - destruct IH as [-> <-]. done.
  - done.
Qed.

(** X2. [play_game] refuses the empty list.  On other lists it carries out
    the moves one after another on the stacks of the game, each the way
    [solve] carries out a move, fails with the exception of the first move
    that fails, and otherwise returns one entry for each move, with its
    source and destination, in the order of the moves; it changes nothing
    but the stacks. *)
Theorem play_game_replays (g : Game.t) (moves : list (nat * nat)) :
  (moves = [] →
   Game.play_game g moves = Raise (Failure "No moves for successful game solve?"))
  ∧ (moves ≠ [] →
     match Game.play_game g moves with
     | Ok (g', fixed) =>
         apply_moves (Game.stacks g) moves = Ok (Game.stacks g')
         ∧ g' = Game.set_stacks g (Game.stacks g')
         ∧ move_of <$> fixed = moves
     | Raise e => apply_moves (Game.stacks g) moves = Raise e
     end).
Proof.
  split.
  - intros ->. reflexivity.
  - intros Hne. unfold Game.play_game. rewrite bool_decide_false by done.
    pose proof (play_moves_apply (Game.stacks g) moves) as H.
    destruct (Game.play_moves (Game.stacks g) moves) as [[ss' fixed]|e]; simpl;
      [|done].
    destruct H as [H1 H2]. done.
Qed.

Lemma play_moves_lookup (ss ss' : list Stack.t) (moves : list (nat * nat))
    (fixed : list Game.fixed_move) (k i j : nat) (ssk : list Stack.t) :
  Game.play_moves ss moves = Ok (ss', fixed) →
  moves !! k = Some (i, j) →
  apply_moves ss (take k moves) = Ok ssk →
  ∃ ss1 cards origin1 dest1,
    Game.take_cards ssk i j = Ok (ss1, cards)
    ∧ ss1 !! i = Some origin1 ∧ ss1 !! j = Some dest1
    ∧ fixed !! k
      = Some (i, Z.of_nat (py_len (Stack.stack origin1)) - Z.of_nat (py_len cards),
              j, Z.max 0 (Z.of_nat (py_len (Stack.stack dest1)) - 1)).
Proof.
  revert ss fixed k. induction moves as [|[i0 j0] moves IH]; intros ss fixed k;
    [done|].
  simpl. unfold Game.apply_move. simpl.
  destruct (Game.take_cards ss i0 j0) as [[ss1 cards]|e] eqn:Htake; simpl; [|done].
  unfold Game.nth_stack.
  destruct (ss1 !! i0) as [origin1|] eqn:Hi; simpl; [|done].
  destruct (ss1 !! j0) as [dest1|] eqn:Hj; simpl; [|done].
  destruct (Game.put_cards ss1 j0 cards) as [ss2|e] eqn:Hput; simpl; [|done].
  destruct (Game.play_moves ss2 moves) as [[ss3 fixed']|e] eqn:Hplay; simpl; [|done].
  intros [= <- <-]. destruct k as [|k]; simpl.
  - intros [= -> ->] [= <-]. exists ss1, cards, origin1, dest1. done.
  - intros Hk. unfold Game.apply_move. simpl. rewrite Htake. simpl.
    rewrite Hput. simpl. intros Hssk.
    by apply (IH ss2 fixed' k).
Qed.

(** X3. The offsets [play_game] attaches to a move between two different
    stacks that hold cards.  With [l] on the source when the move is made,
    the cards [mv] that [play_game] takes are the top card when the
    destination is a free cell and the run of [which_cards_moving]
    otherwise; the cards [pre] under them stay.  The source offset is the
    number of cards that stay minus the number that leave (the length is
    read after the removal, and the cards moved are subtracted from it);
    the destination offset is the number of cards on the destination minus
    1, 0 when it is empty. *)
Theorem play_game_offsets (g g' : Game.t) (moves : list (nat * nat))
    (fixed : list Game.fixed_move) (k i j : nat) (ssk : list Stack.t)
    (origin dest : Stack.t) (l ld : list string) :
  Game.play_game g moves = Ok (g', fixed) →
  moves !! k = Some (i, j) → i ≠ j →
  apply_moves (Game.stacks g) (take k moves) = Ok ssk →
  ssk !! i = Some origin → ssk !! j = Some dest →
  Stack.stack origin = Cards l → Stack.stack dest = Cards ld →
  ∃ pre mv,
    l = pre ++ mv ∧ mv ≠ []
    ∧ (Stack.card_type dest = Stack.freecell_kind → length mv = 1%nat)
    ∧ (Stack.card_type dest ≠ Stack.freecell_kind →
       Stack.which_cards_moving origin = Ok mv)
    ∧ Game.take_cards ssk i j = Ok (<[i := after_take origin pre]> ssk, Cards mv)
    ∧ fixed !! k
      = Some (i, Z.of_nat (length pre) - Z.of_nat (length mv),
              j, Z.max 0 (Z.of_nat (length ld) - 1)).
Proof.
  unfold Game.play_game. case_bool_decide; [done|].
  destruct (Game.play_moves (Game.stacks g) moves) as [[ss' fixed']|e] eqn:Hplay;
    simpl; [|done].
  intros [= <- <-] Hk Hij Hssk Hi Hj Hl Hld.
  destruct (play_moves_lookup _ _ _ _ k i j ssk Hplay Hk Hssk)
    as (ss1 & cards & origin1 & dest1 & Htake & Hi1 & Hj1 & Hfix).
  rewrite Htake.
  revert Htake. unfold Game.take_cards, Game.nth_stack. rewrite Hi, Hj. simpl.
  destruct (Stack.resolve_move_from origin _) as [[origin' moved]|e] eqn:Hres;
    simpl; [|done].
  intros [= <- <-].
  rewrite list_lookup_insert_eq in Hi1 by (by eapply lookup_lt_Some).
  rewrite list_lookup_insert_ne, Hj in Hj1 by done. simplify_eq.
  destruct (resolve_move_from_split _ _ l _ _ Hl Hres)
    as (pre & mv & -> & Hmv & -> & -> & Hrun & Hone).
  exists pre, mv. split_and!; [done|done| | |done|].
  - intros Hcell. rewrite bool_decide_eq_true_2 in Hone by done.
    assert (Hlen : length mv = Nat.min 1 (length (pre ++ mv))) by (by apply Hone).
    rewrite length_app in Hlen. destruct mv as [|c mv]; [done|].
    change (length (c :: mv)) with (S (length mv)) in *. lia.
  - intros Hcell. rewrite bool_decide_eq_false_2 in Hrun by done. by apply Hrun.
  - rewrite Hfix. simpl. by rewrite Hld.
Qed.

(** ** The search returns a solution *)

Lemma get_score_same (g g' : Game.t) (override : bool) (v : Z) :
  Game.get_score g override = Ok (g', v) →
  Game.stacks g' = Game.stacks g ∧ Game.move_history g' = Game.move_history g
  ∧ Game.depth g' = Game.depth g ∧ Game.max_depth g' = Game.max_depth g.
Proof.
  unfold Game.get_score.
  destruct (negb (Game.score g =? 0)%Z && negb override); [by intros [= <- <-]|].
  destruct (Game.score_loop 0 (Game.stacks g)); simpl; [|done].
  by intros [= <- <-].
Qed.

Lemma traverse_Forall {A B : Type} (f : A → result B) (P : A → Prop)
    (Q : B → Prop) (l : list A) (bs : list B) :
  (∀ a b, f a = Ok b → P a → Q b) →
  traverse f l = Ok bs → Forall P l → Forall Q bs.
Proof.
  intros HPQ Ht HP. apply traverse_Forall2 in Ht.
  induction Ht as [|a b l bs Hab _ IH]; [constructor|].
  apply Forall_cons in HP as [Ha Hl]. constructor; eauto.
Qed.

Lemma insert_by_key_Forall {A : Type} (key : A → Z) (P : A → Prop) (x : A)
    (l : list A) :
  P x → Forall P l → Forall P (insert_by_key key x l).
Proof.
  intros Hx. induction 1 as [|y l Hy Hl IH]; simpl; [by repeat constructor|].
  destruct (key x <=? key y)%Z; repeat constructor; done.
Qed.

Lemma sorted_by_key_Forall {A : Type} (key : A → Z) (P : A → Prop) (l : list A) :
  Forall P l → Forall P (sorted_by_key key l).
Proof.
  unfold sorted_by_key. induction 1 as [|x l Hx Hl IH]; simpl; [constructor|].
  by apply insert_by_key_Forall.
Qed.

Lemma reached_child (self n c : Game.t) (move : nat * nat) :
  reached self n → Game.child n move = Ok c → reached self c.
Proof.
  unfold reached. intros Hn Hc. apply child_stacks in Hc as (Happ & _ & Hh).
  rewrite Hh, apply_moves_app, Hn. simpl. by rewrite Happ.
Qed.

Lemma reached_solve (self n : Game.t) (results : list Game.t) :
  reached self n → Game.solve n = Ok (Some results) →
  Forall (reached self) results.
Proof.
  intros Hn Hsolve. apply solve_children in Hsolve as (moves & _ & Hch).
  apply traverse_Forall2 in Hch.
  induction Hch as [|move c moves results Hc _ IH]; constructor; [|done].
  by eapply reached_child.
Qed.

Lemma reached_sorted (self : Game.t) (nodes : list Game.t)
    (ks : list (Game.t * Z)) :
  Forall (reached self) nodes → traverse Game.keyed nodes = Ok ks →
  Forall (reached self) (map fst (sorted_by_key snd ks)).
Proof.
  intros Hn Hks.
  assert (Forall (λ k, reached self k.1) (sorted_by_key snd ks)) as H.
  { apply sorted_by_key_Forall.
    eapply (traverse_Forall Game.keyed (reached self)); [|exact Hks|exact Hn].
    intros n [n' key]. unfold Game.keyed.
    destruct (Game.get_score n false) as [[n'' v]|e] eqn:Hs; simpl; [|done].
    intros [= <- <-] Hr. apply get_score_same in Hs as (Hs & Hh & _).
    unfold reached in *. simpl. by rewrite Hs, Hh. }
  induction H as [|k l Hk _ IH]; simpl; by constructor.
Qed.

Lemma search_sound (fuel : nat) (self : Game.t) (print_level : Z)
    (queue : list Game.t) (visited : list string) (fixed : list Game.fixed_move) :
  Forall (reached self) queue →
  Game.search fuel self print_level queue visited = Some (Ok fixed) →
  fixed = []
  ∨ ∃ final, apply_moves (Game.stacks self) (move_of <$> fixed) = Ok final
      ∧ Game.is_complete (Game.set_stacks self final) = true.
Proof.
  revert queue visited. induction fuel as [|fuel IH]; intros queue visited Hq;
    [done|].
  simpl. destruct queue as [|current queue]; [intros [= <-]; by left|].
  apply Forall_cons in Hq as [Hcur Hq].
  case_bool_decide; [by apply IH|].
  assert (Hscored : ∀ cur', Game.stacks cur' = Game.stacks current →
            Game.move_history cur' = Game.move_history current →
            (if Game.is_complete cur'
             then Some (r <- Game.play_game self (Game.move_history cur') ;; Ok r.2)
             else
               match Game.solve cur' with
               | Raise e => Some (Raise e)
               | Ok None =>
                   Game.search fuel self print_level queue (visited ++ [Game.hash cur'])
               | Ok (Some results) =>
                   match traverse Game.keyed (queue ++ results) with
                   | Raise e => Some (Raise e)
                   | Ok ks =>
                       Game.search fuel self print_level
                         (map fst (sorted_by_key snd ks)) (visited ++ [Game.hash cur'])
                   end
               end) = Some (Ok fixed) →
            fixed = []
            ∨ ∃ final, apply_moves (Game.stacks self) (move_of <$> fixed) = Ok final
                ∧ Game.is_complete (Game.set_stacks self final) = true).
  { intros cur' Hs Hh.
    assert (Hcur' : reached self cur') by (unfold reached in *; by rewrite Hs, Hh).
    destruct (Game.is_complete cur') eqn:Hc.
    - destruct (Game.play_game self (Game.move_history cur')) as [[g' fx]|e] eqn:Hplay;
        simpl; [|done].
      intros [= <-]. right. exists (Game.stacks cur').
      unfold Game.play_game in Hplay. case_bool_decide; [done|].
      pose proof (play_moves_apply (Game.stacks self) (Game.move_history cur')) as Hp.
      destruct (Game.play_moves _ _) as [[ss' fx']|e]; simpl in *; [|done].
      injection Hplay as <- <-. destruct Hp as [Hp ->].
      split; [exact Hcur'|]. exact Hc.
    - destruct (Game.solve cur') as [[results|]|e] eqn:Hsolve; [| by apply IH | done].
      destruct (traverse Game.keyed (queue ++ results)) as [ks|e] eqn:Hks; [|done].
      apply IH. eapply reached_sorted; [|exact Hks].
      apply Forall_app. split; [done|]. by eapply reached_solve. }
  destruct (0 <? print_level)%Z.
  - destruct (Game.get_score current false) as [[cur' v]|e] eqn:Hscore; simpl; [|done].
    apply get_score_same in Hscore as (Hs & Hh & _). by apply Hscored.
  - by apply Hscored.
Qed.

(** X4. When [global_solve], started on a game with an empty move history,
    returns a list of moves that is not empty, carrying out these moves
    from the stacks of the game, each the way [solve] carries out a move,
    succeeds and ends on stacks that make the game complete. *)
Theorem global_solve_sound (fuel : nat) (g : Game.t) (print_level : Z)
    (fixed : list Game.fixed_move) :
  Game.move_history g = [] →
  Game.global_solve fuel g print_level = Some (Ok fixed) →
  fixed ≠ [] →
  ∃ final, apply_moves (Game.stacks g) (move_of <$> fixed) = Ok final
    ∧ Game.is_complete (Game.set_stacks g final) = true.
Proof.
  intros Hh. unfold Game.global_solve. destruct (0 <? Game.depth g)%Z; [done|].
  intros Hs Hne. apply search_sound in Hs as [?|?]; [done|done|].
  repeat constructor. unfold reached. by rewrite Hh.
Qed.

(** ** The search halts *)

Lemma valid_row_length (g : Game.t) (i : nat) (js : list nat) :
  (length (valid_row g i js) <= length js)%nat.
Proof. unfold valid_row. rewrite length_fmap. apply length_filter. Qed.

Lemma valid_rows_length (g : Game.t) (dests : list nat) :
  (length (valid_rows g dests)
   <= length dests * length (Game.stacks g))%nat.
Proof.
  induction dests as [|i dests IH]; [done|].
  unfold valid_rows. rewrite bind_cons, length_app. fold (valid_rows g dests).
  assert (length (match Game.stacks g !! i with
                  | Some dest =>
                      if Stack.locked dest then []
                      else valid_row g i (seq 0 (length (Game.stacks g)))
                  | None => []
                  end) <= length (Game.stacks g))%nat.
  { destruct (Game.stacks g !! i) as [dest|]; [|simpl; lia].
    destruct (Stack.locked dest); [simpl; lia|].
    etrans; [apply valid_row_length|]. by rewrite length_seq. }
  simpl. lia.
Qed.

Lemma enumerate_moves_length (g : Game.t) (moves : list (nat * nat)) :
  Game.enumerate_moves g = Ok moves →
  (length moves <= length (Game.stacks g) * length (Game.stacks g))%nat.
Proof.
  intros H. apply moves_over_rows in H as ->.
  etrans; [apply valid_rows_length|]. by rewrite length_seq.
Qed.

Lemma apply_move_length (ss ss' : list Stack.t) (move : nat * nat) :
  Game.apply_move ss move = Ok ss' → length ss' = length ss.
Proof.
  unfold Game.apply_move, Game.take_cards, Game.put_cards.
  destruct (Game.nth_stack ss move.2); simpl; [|done].
  destruct (Game.nth_stack ss move.1); simpl; [|done].
  destruct (Stack.resolve_move_from _ _) as [[origin' moved]|]; simpl; [|done].
  destruct (Game.nth_stack _ move.2); simpl; [|done].
  destruct (Stack.resolve_move_to _ _); simpl; [|done].
  intros [= <-]. by rewrite !length_insert.
Qed.

(** The children [solve] returns: no more than the square of the number
    of stacks, each one level nearer to the cutoff, which the parent has
    not passed. *)
Lemma solve_children_pot (n : Game.t) (results : list Game.t) :
  Game.solve n = Ok (Some results) →
  (length results <= length (Game.stacks n) * length (Game.stacks n))%nat
  ∧ Forall (λ c, length (Game.stacks c) = length (Game.stacks n)
                 ∧ S (levels_left c) = levels_left n) results.
Proof.
  intros Hsolve.
  assert (Hd : Game.depth n <= Game.max_depth n).
  { revert Hsolve. unfold Game.solve.
    destruct (Z.ltb_spec (Game.max_depth n) (Game.depth n)); [done|lia]. }
  apply solve_children in Hsolve as (moves & Hmoves & Hch).
  apply traverse_Forall2 in Hch. split.
  - rewrite <- (Forall2_length _ _ _ Hch). by apply enumerate_moves_length.
  - clear Hmoves. induction Hch as [|move c moves results Hc _ IH]; constructor;
      [|done].
    unfold Game.child in Hc.
    destruct (Game.apply_move (Game.stacks n) move) as [ss|e] eqn:Happ; simpl in Hc;
      [|done].
    destruct (Game.get_score _ true) as [[c' v]|e] eqn:Hs; simpl in Hc; [|done].
    injection Hc as <-. apply get_score_same in Hs as (Hs & _ & Hdc & Hmc).
    simpl in *. split.
    + rewrite Hs. by eapply apply_move_length.
    + unfold levels_left. rewrite Hdc, Hmc. lia.
Qed.

Lemma pot_positive (b r : nat) : (1 <= pot b r)%nat.
Proof. destruct r; simpl; lia. Qed.

Lemma queue_pot_cons (b : nat) (n : Game.t) (queue : list Game.t) :
  queue_pot b (n :: queue) = (node_pot b n + queue_pot b queue)%nat.
Proof. reflexivity. Qed.

Lemma queue_pot_app (b : nat) (q1 q2 : list Game.t) :
  queue_pot b (q1 ++ q2) = (queue_pot b q1 + queue_pot b q2)%nat.
Proof. apply sum_list_with_app. Qed.

Lemma queue_pot_children (b : nat) (n : Game.t) (results : list Game.t) :
  (length results <= b)%nat →
  Forall (λ c, S (levels_left c) = levels_left n) results →
  (S (queue_pot b results) <= node_pot b n)%nat.
Proof.
  intros Hlen Hres.
  assert (H : (queue_pot b results
               <= length results * pot b (pred (levels_left n)))%nat).
  { clear Hlen. induction Hres as [|c results Hc _ IH]; [simpl; lia|].
    rewrite queue_pot_cons. unfold node_pot at 1.
    replace (levels_left c) with (pred (levels_left n)) by lia.
    simpl. lia. }
  unfold node_pot. destruct results as [|c results].
  - pose proof (pot_positive b (levels_left n)). simpl. lia.
  - apply Forall_cons in Hres as [Hc _].
    destruct (levels_left n) as [|r] eqn:Hr; [lia|]. cbn [pot pred] in *.
    assert (length (c :: results) * pot b r <= b * pot b r)%nat
      by (apply Nat.mul_le_mono_r; exact Hlen).
    lia.
Qed.

Lemma queue_pot_insert (b : nat) (key : Game.t * Z → Z) (x : Game.t * Z)
    (l : list (Game.t * Z)) :
  queue_pot b (map fst (insert_by_key key x l))
  = (node_pot b x.1 + queue_pot b (map fst l))%nat.
Proof.
  induction l as [|y l IH]; cbn [insert_by_key map]; [done|].
  destruct (key x <=? key y)%Z; cbn [map]; [done|].
  rewrite !queue_pot_cons, IH. lia.
Qed.

Lemma queue_pot_sorted (b : nat) (nodes : list Game.t) (ks : list (Game.t * Z)) :
  traverse Game.keyed nodes = Ok ks →
  queue_pot b (map fst (sorted_by_key snd ks)) = queue_pot b nodes
  ∧ (∀ N, Forall (λ n, length (Game.stacks n) = N) nodes →
          Forall (λ n, length (Game.stacks n) = N) (map fst (sorted_by_key snd ks))).
Proof.
  intros Hks. apply traverse_Forall2 in Hks.
  induction Hks as [|n k nodes ks Hk _ [IH1 IH2]]; [done|].
  unfold Game.keyed in Hk.
  destruct (Game.get_score n false) as [[n' v]|e] eqn:Hs; simpl in Hk; [|done].
  injection Hk as <-. apply get_score_same in Hs as (Hs & _ & Hd & Hm).
  split.
  - change (sorted_by_key snd ((n', (- v)%Z) :: ks))
      with (insert_by_key snd (n', (- v)%Z) (sorted_by_key snd ks)).
    rewrite queue_pot_insert, IH1, queue_pot_cons.
    unfold node_pot, levels_left. simpl. by rewrite Hd, Hm.
  - intros N HN. apply Forall_cons in HN as [Hn HN].
    change (sorted_by_key snd ((n', (- v)%Z) :: ks))
      with (insert_by_key snd (n', (- v)%Z) (sorted_by_key snd ks)).
    specialize (IH2 N HN).
    assert (HF : Forall (λ k : Game.t * Z, length (Game.stacks k.1) = N)
                   (insert_by_key snd (n', (- v)%Z) (sorted_by_key snd ks))).
    { apply insert_by_key_Forall; [simpl; by rewrite Hs|].
      clear -IH2. induction (sorted_by_key snd ks) as [|k l IH]; [constructor|].
      simpl in IH2. apply Forall_cons in IH2 as [? ?]. constructor; auto. }
    clear -HF. induction HF; simpl; by constructor.
Qed.

Lemma search_halts (fuel : nat) (self : Game.t) (print_level : Z)
    (queue : list Game.t) (visited : list string) (N : nat) :
  Forall (λ n, length (Game.stacks n) = N) queue →
  (queue_pot (N * N) queue < fuel)%nat →
  Game.search fuel self print_level queue visited ≠ None.
Proof.
  revert queue visited. induction fuel as [|fuel IH]; intros queue visited HN Hpot;
    [lia|].
  simpl. destruct queue as [|current queue]; [done|].
  apply Forall_cons in HN as [Hcur HN].
  rewrite queue_pot_cons in Hpot.
  pose proof (pot_positive (N * N) (levels_left current)) as Hpos.
  fold (node_pot (N * N) current) in Hpos.
  case_bool_decide; [apply IH; [done|lia]|].
  assert (Hscored : ∀ cur', Game.stacks cur' = Game.stacks current →
            Game.depth cur' = Game.depth current →
            Game.max_depth cur' = Game.max_depth current →
            (if Game.is_complete cur'
             then Some (r <- Game.play_game self (Game.move_history cur') ;; Ok r.2)
             else
               match Game.solve cur' with
               | Raise e => Some (Raise e)
               | Ok None =>
                   Game.search fuel self print_level queue (visited ++ [Game.hash cur'])
               | Ok (Some results) =>
                   match traverse Game.keyed (queue ++ results) with
                   | Raise e => Some (Raise e)
                   | Ok ks =>
                       Game.search fuel self print_level
                         (map fst (sorted_by_key snd ks)) (visited ++ [Game.hash cur'])
                   end
               end) ≠ None).
  { intros cur' Hs Hd Hm. destruct (Game.is_complete cur'); [done|].
    destruct (Game.solve cur') as [[results|]|e] eqn:Hsolve; [| apply IH; [done|lia] | done].
    destruct (traverse Game.keyed (queue ++ results)) as [ks|e] eqn:Hks; [|done].
    destruct (solve_children_pot cur' results Hsolve) as [Hlen Hres].
    rewrite Hs, Hcur in Hlen.
    destruct (queue_pot_sorted (N * N) _ _ Hks) as [Hsum Hlens].
    apply IH.
    - apply Hlens. apply Forall_app. split; [done|].
      eapply Forall_impl; [exact Hres|]. intros c [Hc _]. by rewrite Hc, Hs.
    - rewrite Hsum, queue_pot_app.
      assert (S (queue_pot (N * N) results) <= node_pot (N * N) cur')%nat.
      { apply queue_pot_children; [done|].
        eapply Forall_impl; [exact Hres|]. by intros c [_ ?]. }
      assert (node_pot (N * N) cur' = node_pot (N * N) current)
        by (unfold node_pot, levels_left; by rewrite Hd, Hm).
      lia. }
  destruct (0 <? print_level)%Z.
  - destruct (Game.get_score current false) as [[cur' v]|e] eqn:Hscore; simpl; [|done].
    apply get_score_same in Hscore as (Hs & _ & Hd & Hm). by apply Hscored.
  - by apply Hscored.
Qed.

(** X5. [global_solve] halts: with [n] stacks and a cutoff [max_depth], a
    number of turns of its loop that depends on these two only is enough
    for it to return a list or raise, whatever the cards. *)
Theorem global_solve_halts (g : Game.t) (print_level : Z) (fuel : nat) :
  (node_pot (length (Game.stacks g) * length (Game.stacks g)) g < fuel)%nat →
  ∃ outcome, Game.global_solve fuel g print_level = Some outcome.
Proof.
  intros Hfuel. unfold Game.global_solve.
  destruct (0 <? Game.depth g)%Z; [by eexists|].
  destruct (Game.search fuel g print_level [g] []) as [outcome|] eqn:Hs;
    [by eexists|].
  exfalso. revert Hs. apply (search_halts _ _ _ _ _ (length (Game.stacks g))).
  - by repeat constructor.
  - rewrite queue_pot_cons. simpl. lia.
Qed.

(** ** Equal hashes, equal boards *)

Lemma hash_collapsed (s : Stack.t) (a b : ascii) :
  Stack.stack s = X → Stack.past_cards s = Stack.PastStr (String a (String b "")) →
  Stack.hash s
  = String (match Stack.card_type s with
            | Stack.stack_kind => "S" | Stack.freecell_kind => "F"
            end)%char
      (String "X" (String "[" (String a (String b (String "]" ""))))).
Proof.
  intros HX Hp. unfold Stack.hash, Stack.type_str. rewrite HX, Hp.
  by destruct (Stack.card_type s).
Qed.

Lemma hashable_token (s : Stack.t) :
  hashable s → no_slash (Stack.hash s) ∧ String.length (Stack.hash s) ≠ 0%nat.
Proof.
  intros [Hs|(HX & c & Hp & a & b & -> & Ha & Hb & _)]; [by apply hash_token|].
  rewrite (hash_collapsed s a b HX Hp). split; [|done].
  simpl. split_and!; try done. by destruct (Stack.card_type s).
Qed.

Lemma kind_letter_inj (k1 k2 : Stack.kind) :
  match k1 with Stack.stack_kind => "S"%char | Stack.freecell_kind => "F"%char end
  = match k2 with Stack.stack_kind => "S"%char | Stack.freecell_kind => "F"%char end →
  k1 = k2.
Proof. by destruct k1, k2. Qed.

(** The hash of a stack determines its state. *)
Lemma stack_hash_inj (s1 s2 : Stack.t) :
  hashable s1 → hashable s2 → Stack.hash s1 = Stack.hash s2 → same_state s1 s2.
Proof.
  intros [(l1 & Hl1 & Hc1)|(HX1 & c1 & Hp1 & a1 & b1 & -> & Hcode1)]
         [(l2 & Hl2 & Hc2)|(HX2 & c2 & Hp2 & a2 & b2 & -> & Hcode2)].
  - rewrite (hash_open s1 l1 Hl1), (hash_open s2 l2 Hl2). intros [= Hk Hl].
    apply kind_letter_inj in Hk. apply (f_equal pairs) in Hl.
    rewrite !pairs_concat in Hl by done. subst l2.
    split_and!; [done|congruence|]. by rewrite Hl1.
  - rewrite (hash_open s1 l1 Hl1), (hash_collapsed s2 a2 b2 HX2 Hp2).
    intros [= _ Hl]. exfalso.
    destruct Hc1 as [|c l1 (a & b & -> & _ & _ & Ha) _]; [done|].
    rewrite concat_empty_cons, !append_cons in Hl. by injection Hl as -> _.
  - rewrite (hash_collapsed s1 a1 b1 HX1 Hp1), (hash_open s2 l2 Hl2).
    intros [= _ Hl]. exfalso.
    destruct Hc2 as [|c l2 (a & b & -> & _ & _ & Ha) _]; [done|].
    rewrite concat_empty_cons, !append_cons in Hl. by injection Hl as <- _.
  - rewrite (hash_collapsed s1 a1 b1 HX1 Hp1), (hash_collapsed s2 a2 b2 HX2 Hp2).
    intros [= Hk -> ->]. apply kind_letter_inj in Hk.
    split_and!; [done|congruence|]. intros _. congruence.
Qed.

Lemma Forall2_Permutation_l {A B : Type} (R : A → B → Prop) (l1 l1' : list A)
    (l2' : list B) :
  l1 ≡ₚ l1' → Forall2 R l1' l2' → ∃ l2, l2 ≡ₚ l2' ∧ Forall2 R l1 l2.
Proof.
  intros Hp. revert l2'. induction Hp as [|x l1 l1' _ IH|x y l|l1 l1' l1'' _ IH1 _ IH2];
    intros l2' HF.
  - apply Forall2_nil_inv_l in HF as ->. by exists [].
  - apply Forall2_cons_inv_l in HF as (b & l2'' & Hb & HF & ->).
    destruct (IH _ HF) as (l2 & Hp2 & HF2). exists (b :: l2).
    split; [by constructor|by constructor].
  - apply Forall2_cons_inv_l in HF as (b1 & l2'' & Hb1 & HF & ->).
    apply Forall2_cons_inv_l in HF as (b2 & l2''' & Hb2 & HF & ->).
    exists (b2 :: b1 :: l2'''). split; [apply perm_swap|by repeat constructor].
  - destruct (IH2 _ HF) as (l2 & Hp2 & HF2).
    destruct (IH1 _ HF2) as (l3 & Hp3 & HF3).
    exists l3. split; [by etrans|done].
Qed.

(** The tokens of the hash of a game: the hashes of its stacks in some
    order. *)
Lemma hash_tokens (g : Game.t) :
  Forall hashable (Game.stacks g) →
  ∃ ss, Game.stacks g ≡ₚ ss
    ∧ split_slash (Game.hash g) = map Stack.hash ss ++ [""].
Proof.
  intros Hh.
  pose proof (merge_sort_Permutation str_le (Game.stack_chunks g)) as Hperm.
  unfold Game.stack_chunks in Hperm at 2.
  apply Permutation_map_inv in Hperm as (ss & Hss & Hp).
  exists ss. split; [done|].
  unfold Game.hash. rewrite Hss, <- (map_map Stack.hash (λ t, t +:+ "/")).
  apply split_slash_chunks.
  apply Forall_forall. intros t Ht. apply list_elem_of_In, in_map_iff in Ht
    as (s & <- & Hs). rewrite Hp in Hh. rewrite Forall_forall in Hh.
  by apply hashable_token, Hh, list_elem_of_In.
Qed.

(** X6. Two games whose stacks hold card codes, or the marker with the
    card code of the collapse, have the same hash only when the stacks of
    one are, in some order, in the state of the stacks of the other: same
    type, same cards, same remembered card when collapsed.  A node the
    search drops as visited is such a rearrangement of a node it has
    seen. *)
Theorem hash_same_board (g1 g2 : Game.t) :
  Forall hashable (Game.stacks g1) → Forall hashable (Game.stacks g2) →
  Game.hash g1 = Game.hash g2 →
  ∃ ss, ss ≡ₚ Game.stacks g2 ∧ Forall2 same_state (Game.stacks g1) ss.
Proof.
  intros H1 H2 Hhash.
  destruct (hash_tokens g1 H1) as (ss1 & Hp1 & Ht1).
  destruct (hash_tokens g2 H2) as (ss2 & Hp2 & Ht2).
  rewrite Hhash, Ht2 in Ht1. apply app_inv_tail in Ht1.
  assert (HF : Forall2 same_state ss1 ss2).
  { rewrite Hp1 in H1. rewrite Hp2 in H2. clear -H1 H2 Ht1.
    revert ss2 H2 Ht1. induction H1 as [|s1 ss1 Hs1 _ IH]; intros [|s2 ss2] H2 Ht;
      try done.
    apply Forall_cons in H2 as [Hs2 H2]. injection Ht as Hs Ht.
    constructor; [by apply stack_hash_inj | by apply IH]. }
  destruct (Forall2_Permutation_l same_state _ _ _ Hp1 HF) as (ss & Hp & HF').
  exists ss. split; [by rewrite Hp, Hp2 | done].
Qed.

(** ** What [exact_setup] builds *)

Lemma py_int_raises (s : string) (e : exn) : py_int s = Raise e → e = ValueError.
Proof.
  unfold py_int. destruct (match strip (list_ascii_of_string s) with
                           | [] => _ | _ => _ end); [done|]. by intros [= <-].
Qed.

Lemma decode_stack_outcome (tok : string) :
  match Game.decode_stack tok with
  | Ok s => freshly_decoded s
  | Raise e => e = ValueError
  end.
Proof.
  assert (Hopen : ∀ k l, freshly_decoded (Stack.mk k false (Cards l) (Stack.PastStr ""))).
  { intros k l. unfold freshly_decoded. simpl. repeat split; try done. }
  unfold Game.decode_stack. case_bool_decide; [apply Hopen|].
  destruct (negb (String.prefix "X" _)); [apply Hopen|].
  destruct (py_int (String.substring 3 2 tok)) as [n|e] eqn:Hn; simpl.
  - unfold freshly_decoded. simpl. repeat split; try done. intros _.
    destruct (Z.ltb_spec (-1) n); [right; exists n; split; [lia|done] | by left].
  - by apply py_int_raises in Hn.
Qed.

Lemma traverse_outcome {A B : Type} (f : A → result B) (Q : B → Prop)
    (E : exn → Prop) (l : list A) :
  (∀ a, match f a with Ok b => Q b | Raise e => E e end) →
  match traverse f l with
  | Ok bs => Forall Q bs ∧ length bs = length l
  | Raise e => E e
  end.
Proof.
  intros Hf. induction l as [|a l IH]; simpl; [by split|].
  specialize (Hf a). destruct (f a) as [b|e]; simpl; [|done].
  destruct (traverse f l) as [bs|e]; simpl; [|done].
  destruct IH as [IH1 IH2]. split; [by constructor|simpl; by rewrite IH2].
Qed.

(** X7. [exact_setup] returns a game or raises [ValueError], nothing else.
    The game it returns is the one it was called on but for the stacks
    (the depth, the history, the stored score and [card_stacks] stay);
    there is a stack for each token between the separators that is not
    empty; every stack is locked exactly when it is collapsed, and one
    that holds cards remembers no card. *)
Theorem exact_setup_outcome (g0 : Game.t) (game_hash : string) :
  match Game.exact_setup g0 game_hash with
  | Ok g =>
      g = Game.set_stacks g0 (Game.stacks g)
      ∧ Forall freshly_decoded (Game.stacks g)
      ∧ Forall marker_locked (Game.stacks g)
      ∧ length (Game.stacks g)
        = length (filter (λ x, String.length x ≠ 0%nat) (split_slash game_hash))
  | Raise e => e = ValueError
  end.
Proof.
  unfold Game.exact_setup.
  pose proof (traverse_outcome Game.decode_stack freshly_decoded
                (λ e, e = ValueError)
                (filter (λ x, String.length x ≠ 0%nat) (split_slash game_hash))
                decode_stack_outcome) as H.
  destruct (traverse Game.decode_stack _) as [ss|e]; simpl; [|done].
  destruct H as [HF Hlen]. split_and!; [done|done| |done].
  eapply Forall_impl; [exact HF|]. intros s (Hl & _) HX. by apply Hl.
Qed.

(** ** From the screen to the game *)

Lemma append_assoc (s1 s2 s3 : string) : (s1 +:+ s2) +:+ s3 = s1 +:+ (s2 +:+ s3).
Proof.
  induction s1 as [|c s1 IH]; [done|]. by rewrite !append_cons, IH.
Qed.

Lemma concat_empty_app (l1 l2 : list string) :
  String.concat "" (l1 ++ l2) = String.concat "" l1 +:+ String.concat "" l2.
Proof.
  induction l1 as [|x l1 IH]; [done|].
  rewrite <- app_comm_cons, !concat_empty_cons, IH. by rewrite append_assoc.
Qed.

Lemma computer_hash_chunks (stacks : list (list string)) (freecells : list Z) :
  Gui.computer_hash stacks freecells
  = String.concat ""
      (map (λ t, t +:+ "/")
         (map (λ l, Stack.hash (pile l)) stacks
          ++ map (λ x : Z, if (x =? 0)%Z then "F" else "FL") freecells)).
Proof.
  unfold Gui.computer_hash, Gui.stack_hash, Gui.freecell_hash.
  rewrite map_app, concat_empty_app, !map_map.
  assert (Hcells : map (λ x : Z, if (x =? 0)%Z then "F/" else "FL/") freecells
                   = map (λ x : Z, (if (x =? 0)%Z then "F" else "FL") +:+ "/") freecells).
  { apply map_ext. intros x. by destruct (x =? 0)%Z. }
  rewrite Hcells. reflexivity.
Qed.

Lemma traverse_app {A B : Type} (f : A → result B) (l1 l2 : list A)
    (bs1 bs2 : list B) :
  traverse f l1 = Ok bs1 → traverse f l2 = Ok bs2 →
  traverse f (l1 ++ l2) = Ok (bs1 ++ bs2).
Proof.
  revert bs1. induction l1 as [|a l1 IH]; intros bs1; simpl.
  - by intros [= <-].
  - destruct (f a) as [b|e]; simpl; [|done].
    destruct (traverse f l1) as [bs|e]; simpl; [|done].
    intros [= <-] H2. by rewrite (IH bs eq_refl H2).
Qed.

Lemma traverse_map_ok {A B C : Type} (f : B → result C) (h : A → B) (k : A → C)
    (l : list A) :
  Forall (λ a, f (h a) = Ok (k a)) l → traverse f (map h l) = Ok (map k l).
Proof. induction 1 as [|a l Ha _ IH]; simpl; [done|]. by rewrite Ha, IH. Qed.

Lemma exact_setup_screen (g0 : Game.t) (stacks : list (list string))
    (freecells : list Z) :
  Forall (Forall card_code) stacks →
  Game.exact_setup g0 (Gui.computer_hash stacks freecells)
  = Ok (Game.set_stacks g0 (map pile stacks ++ map cell freecells)).
Proof.
  intros Hcodes.
  assert (Hpile : Forall (λ l, open_stack (pile l)) stacks).
  { eapply Forall_impl; [exact Hcodes|]. intros l Hl. by exists l. }
  set (toks := map (λ l, Stack.hash (pile l)) stacks
               ++ map (λ x : Z, if (x =? 0)%Z then "F" else "FL") freecells).
  assert (Htoks : Forall (λ t, no_slash t ∧ String.length t ≠ 0%nat) toks).
  { apply Forall_app. split.
    - apply Forall_forall. intros t Ht. apply list_elem_of_In, in_map_iff in Ht
        as (l & <- & Hl). rewrite Forall_forall in Hpile.
      by apply hash_token, Hpile, list_elem_of_In.
    - apply Forall_forall. intros t Ht. apply list_elem_of_In, in_map_iff in Ht
        as (x & <- & _). destruct (x =? 0)%Z; simpl; done. }
  unfold Game.exact_setup. rewrite computer_hash_chunks. fold toks.
  rewrite split_slash_chunks
    by (eapply Forall_impl; [exact Htoks|]; by intros t [? _]).
  rewrite filter_app. simpl. rewrite filter_cons, decide_False by (simpl; lia).
  rewrite filter_nil, app_nil_r.
  assert (filter (λ x, String.length x ≠ 0%nat) toks = toks) as ->.
  { clear -Htoks. induction Htoks as [|t toks [_ Ht] _ IH]; [done|].
    by rewrite filter_cons, decide_True, IH by done. }
  subst toks.
  rewrite (traverse_app _ _ _ (map pile stacks) (map cell freecells)); [done| |].
  - apply traverse_map_ok. eapply Forall_impl; [exact Hpile|].
    intros l Hl. by rewrite (decode_stack_hash _ Hl).
  - apply traverse_map_ok. apply Forall_forall. intros x _.
    unfold cell. destruct (x =? 0)%Z; reflexivity.
Qed.

(** X8. When the columns read on the screen hold card codes, the string
    [computer_hash] builds from them and from the free cells is decoded by
    [exact_setup] into these columns as unlocked stacks, in their order,
    followed by the free cells: an empty free cell for an entry 0, and for
    any other entry a free cell that is not locked but holds the
    one-character card [L]. *)
Theorem screen_to_game (g0 : Game.t) (stacks : list (list string))
    (freecells : list Z) :
  Forall (Forall card_code) stacks →
  Game.exact_setup g0 (Gui.computer_hash stacks freecells)
  = Ok (Game.set_stacks g0 (map pile stacks ++ map cell freecells)).
Proof. apply exact_setup_screen. Qed.

(** ** Dealing the cards *)

Lemma dealt_step (cards : list string) (n f k : nat) :
  (k < n)%nat →
  dealt cards n f k !! k = Some (Stack.init Stack.stack_kind false)
  ∧ <[k := pile (slice4 cards k)]> (dealt cards n f k) = dealt cards n f (S k).
Proof.
  intros Hk. unfold dealt. rewrite seq_S, map_app. cbn [map Nat.add].
  set (first := map (λ i, pile (slice4 cards i)) (seq 0 k)).
  assert (Hlen : length first = k)
    by (subst first; by rewrite length_map, length_seq).
  replace (n - k)%nat with (S (n - S k)) by lia. cbn [replicate].
  split.
  - rewrite lookup_app_r by lia. rewrite Hlen, Nat.sub_diag. done.
  - rewrite insert_app_r_alt by lia. rewrite Hlen, Nat.sub_diag.
    rewrite <- (assoc_L (++)). done.
Qed.

Lemma lookup_map {A B : Type} (f : A → B) (l : list A) (i : nat) :
  map f l !! i = f <$> l !! i.
Proof. revert i. induction l as [|a l IH]; intros [|i]; simpl; auto. Qed.

Lemma deal_loop_fresh (cards : list string) (n f m k : nat) :
  (k + m = n)%nat →
  Game.deal_loop (dealt cards n f k)
    (map (λ i, take 4 (drop (i * 4) cards)) (seq 0 n)) (seq k m)
  = Ok (dealt cards n f n).
Proof.
  revert k. induction m as [|m IH]; intros k Hk.
  - simpl. by replace k with n by lia.
  - destruct (dealt_step cards n f k) as [Hlook Hins]; [lia|].
    cbn [seq Game.deal_loop]. unfold Game.nth_stack. rewrite Hlook.
    rewrite lookup_map, lookup_seq_lt by lia. cbn [bind fmap option_fmap option_map].
    change (Stack.init_cards _ _) with (Ok (pile (slice4 cards k)) : result Stack.t).
    cbn [bind]. rewrite Hins. apply IH. lia.
Qed.

Lemma mjoin_slices (cards : list string) (k n : nat) :
  mjoin (map (slice4 cards) (seq k n)) = take (n * 4) (drop (k * 4) cards).
Proof.
  revert k. induction n as [|n IH]; intros k; [done|].
  cbn [seq map mjoin list_join]. rewrite IH. unfold slice4.
  replace (S k * 4)%nat with (k * 4 + 4)%nat by lia.
  rewrite <- drop_drop.
  replace (S n * 4)%nat with (4 + n * 4)%nat by lia.
  apply take_take_drop.
Qed.

Lemma cards_of_dealt (cards : list string) (n f : nat) :
  mjoin (cards_of <$> dealt cards n f n) = take (n * 4) cards.
Proof.
  unfold dealt. rewrite Nat.sub_diag. simpl.
  rewrite fmap_app, join_app.
  assert (mjoin (cards_of <$> replicate f (Stack.init Stack.freecell_kind false)) = [])
    as -> by (induction f; [done|by simpl]).
  rewrite app_nil_r.
  transitivity (mjoin (map (slice4 cards) (seq 0 n)));
    [|apply (mjoin_slices cards 0 n)].
  f_equal. generalize (seq 0 n). intros l.
  induction l as [|i l IH]; [done|]. simpl. f_equal. exact IH.
Qed.

Lemma total_cards_cards_of (ss : list Stack.t) :
  Forall (λ s, Stack.stack s ≠ X) ss →
  total_cards ss = Z.of_nat (length (mjoin (cards_of <$> ss))).
Proof.
  induction 1 as [|s ss Hs _ IH]; [done|].
  rewrite total_cards_cons, IH, fmap_cons.
  change (mjoin (cards_of s :: (cards_of <$> ss)))
    with (cards_of s ++ mjoin (cards_of <$> ss)).
  rewrite length_app, Nat2Z.inj_add. f_equal.
  unfold card_count, cards_of. by destruct (Stack.stack s).
Qed.

Lemma deck_codes : length Game.deck = 36%nat
  ∧ Forall (λ c, String.length c = 2%nat) Game.deck.
Proof. split; [reflexivity|]. vm_compute. repeat constructor. Qed.

(** X9. On a fresh game of [n] stacks and [f] free cells, [deal_cards]
    with a shuffle of the deck succeeds: stack [i] gets the four cards
    [cards[4i : 4i + 4]] of the shuffle and the free cells stay empty, so
    that the stacks show the first [4n] cards of the shuffle in order, all
    36 cards when there are 9 stacks or more (the stacks past the ninth
    stay empty) and fewer cards otherwise; the stacks are well formed.  A
    second deal on the game raises, as soon as there is a stack. *)
Theorem deal_cards_fresh (n f : nat) (cutoff : Z) (shuffled : list string) :
  shuffled ≡ₚ Game.deck →
  ∃ g, Game.deal_cards (Game.init n f cutoff) shuffled = Ok g
    ∧ Game.stacks g
      = map (λ i, pile (slice4 shuffled i)) (seq 0 n)
        ++ replicate f (Stack.init Stack.freecell_kind false)
    ∧ mjoin (cards_of <$> Game.stacks g) = take (n * 4) shuffled
    ∧ total_cards (Game.stacks g) = Z.of_nat (Nat.min (n * 4) 36)
    ∧ Forall wf_stack (Game.stacks g)
    ∧ ((0 < n)%nat → ∀ again,
         Game.deal_cards g again
         = Raise (Failure "Illegal init, cards already there")).
Proof.
  intros Hperm. destruct deck_codes as [Hlen Hcodes].
  rewrite <- Hperm in Hlen, Hcodes.
  assert (Hdeal : Game.deal_cards (Game.init n f cutoff) shuffled
                  = Ok (Game.set_stacks (Game.init n f cutoff) (dealt shuffled n f n))).
  { unfold Game.deal_cards. simpl.
    change (replicate n (Stack.init Stack.stack_kind false)
            ++ replicate f (Stack.init Stack.freecell_kind false))
      with (map (λ i, pile (slice4 shuffled i)) (seq 0 0)
            ++ replicate n (Stack.init Stack.stack_kind false)
            ++ replicate f (Stack.init Stack.freecell_kind false)).
    rewrite <- (Nat.sub_0_r n) at 1. fold (dealt shuffled n f 0).
    by rewrite (deal_loop_fresh shuffled n f n 0). }
  assert (Hstacks : dealt shuffled n f n
                    = map (λ i, pile (slice4 shuffled i)) (seq 0 n)
                      ++ replicate f (Stack.init Stack.freecell_kind false)).
  { unfold dealt. by rewrite Nat.sub_diag. }
  assert (Hopen : Forall (λ s, ∃ l, Stack.stack s = Cards l
                               ∧ Forall (λ c, String.length c = 2%nat) l)
                    (dealt shuffled n f n)).
  { rewrite Hstacks. apply Forall_app. split.
    - apply Forall_forall. intros s Hs. apply list_elem_of_In, in_map_iff in Hs
        as (i & <- & _). exists (slice4 shuffled i). split; [done|].
      unfold slice4. by apply Forall_take, Forall_drop.
    - apply Forall_forall. intros s Hs. apply elem_of_replicate in Hs as [-> _].
      exists []. by split. }
  eexists. split; [exact Hdeal|]. simpl. split_and!.
  - exact Hstacks.
  - apply cards_of_dealt.
  - rewrite total_cards_cards_of, cards_of_dealt.
    + rewrite length_take, Hlen. done.
    + eapply Forall_impl; [exact Hopen|]. intros s (l & -> & _). done.
  - eapply Forall_impl; [exact Hopen|]. intros s (l & Hl & Hc). split.
    + intros l' Hl'. congruence.
    + rewrite Hl. done.
  - intros Hn again. unfold Game.deal_cards. simpl.
    destruct n as [|n]; [lia|]. rewrite Hstacks. cbn [seq map Game.deal_loop].
    unfold Game.nth_stack. simpl.
    destruct shuffled as [|c shuffled]; [done|]. reflexivity.
Qed.

(** X10. From the screen to the solution: when the columns read hold card
    codes and the calls [main] makes on the string of [computer_hash]
    ([Game()], [exact_setup], [global_solve(-1)]) return a list of moves
    that is not empty, these moves, carried out one after another on the
    columns followed by the empty free cell, all succeed and leave eight
    complete stacks. *)
Theorem solve_screen_sound (fuel : nat) (stacks : list (list string))
    (fixed : list Game.fixed_move) :
  Forall (Forall card_code) stacks →
  Gui.solve_screen fuel (Gui.computer_hash stacks Gui.read_freecells)
  = Some (Ok fixed) →
  fixed ≠ [] →
  ∃ final,
    apply_moves (map pile stacks ++ [cell 0]) (move_of <$> fixed) = Ok final
    ∧ length (filter (λ s, Stack.is_complete s = true) final) = 8%nat.
Proof.
  intros Hcodes. unfold Gui.solve_screen.
  rewrite (exact_setup_screen _ _ _ Hcodes). unfold Game.global_solve. simpl.
  intros Hs Hne. apply search_sound in Hs as [?|(final & Hfinal & Hc)]; [done| |].
  - exists final. split; [exact Hfinal|]. by apply is_complete_finished in Hc.
  - repeat constructor.
Qed.

(** ** The top run *)

Lemma take_below_chain (below : list string) (top : string) (more : list string) :
  Stack.take_below below top = Ok more →
  (∀ i x y, (top :: more) !! i = Some x → (top :: more) !! S i = Some y →
            Stack.compatible y x = Ok true)
  ∧ ∃ rest, below = more ++ rest
      ∧ ∀ c last_taken, head rest = Some c → last (top :: more) = Some last_taken →
          Stack.compatible c last_taken = Ok false.
Proof.
  revert top more. induction below as [|c below IH]; intros top more; simpl.
  - intros [= <-]. split; [by intros [|i] x y|]. exists []. by split.
  - destruct (Stack.compatible c top) as [[|]|e] eqn:Hc; simpl; [| |done].
    + destruct (Stack.take_below below c) as [more'|e] eqn:Hm; simpl; [|done].
      intros [= <-]. destruct (IH c more' Hm) as (Hchain & rest & -> & Hrest).
      split.
      * intros [|i] x y; simpl.
        -- by intros [= <-] [= <-].
        -- apply Hchain.
      * exists rest. split; [done|]. intros c' lt Hhead Hlast. by apply Hrest.
    + intros [= <-]. split; [by intros [|i] x y|].
      exists (c :: below). split; [done|]. by intros c' lt [= <-] [= <-].
Qed.

(** X11. [which_cards_moving] on a stack of cards returns the longest run
    at the top: a final segment that is not empty, in which each card is
    compatible with the one above it, and which the card under it, if
    there is one, does not extend. *)
Theorem which_cards_moving_run (s : Stack.t) (l run : list string) :
  Stack.stack s = Cards l → Stack.which_cards_moving s = Ok run →
  ∃ pre, l = pre ++ run ∧ run ≠ [] ∧ chain run
    ∧ ∀ under first, last pre = Some under → head run = Some first →
        Stack.compatible under first = Ok false.
Proof.
  intros Hs. unfold Stack.which_cards_moving. rewrite Hs.
  destruct (reverse l) as [|top below] eqn:Hr; [done|].
  destruct (Stack.take_below below top) as [more|e] eqn:Hm; simpl; [|done].
  intros [= <-].
  destruct (take_below_chain _ _ _ Hm) as (Hchain & rest & -> & Hrest).
  exists (reverse rest). split_and!.
  - apply (f_equal reverse) in Hr. rewrite reverse_involutive in Hr.
    rewrite Hr, (reverse_cons (more ++ rest)), reverse_app, reverse_cons.
    by rewrite <- (assoc_L (++)).
  - rewrite reverse_cons. intros H. by apply app_nil in H as [_ ?].
  - intros i a b Ha Hb.
    assert (Hi : (S i < length (top :: more))%nat).
    { apply lookup_lt_Some in Hb. by rewrite length_reverse in Hb. }
    rewrite reverse_lookup in Ha by lia. rewrite reverse_lookup in Hb by lia.
    apply (Hchain (length (top :: more) - S (S i))%nat b a); [done|].
    replace (S (length (top :: more) - S (S i))) with (length (top :: more) - S i)%nat
      by lia. done.
  - intros under first Hu Hf. apply Hrest.
    + rewrite last_reverse in Hu. done.
    + rewrite head_reverse in Hf. done.
Qed.

(** ** The stored score *)

(** X12. What [get_score] returns it returns again when asked without
    [override], leaving the game as it is; asked without [override] on a
    game with a stored score other than 0, it returns this score without
    looking at the stacks, and it changes nothing but the stored score in
    any case. *)
Theorem get_score_stored (g g' : Game.t) (override : bool) (v : Z) :
  Game.get_score g override = Ok (g', v) →
  Game.get_score g' false = Ok (g', v)
  ∧ g' = Game.set_score g v
  ∧ (override = false → Game.score g ≠ 0 → v = Game.score g).
Proof.
  unfold Game.get_score.
  destruct (Z.eqb_spec (Game.score g) 0) as [H0|H0]; simpl.
  - destruct (Game.score_loop 0 (Game.stacks g)) as [v'|e] eqn:Hv; simpl; [|done].
    intros [= <- <-]. simpl. split_and!; [|done|done].
    destruct (Z.eqb_spec v' 0) as [->|Hv']; simpl; [|done].
    by rewrite Hv.
  - destruct override; simpl.
    + destruct (Game.score_loop 0 (Game.stacks g)) as [v'|e] eqn:Hv; simpl; [|done].
      intros [= <- <-]. simpl. split_and!; [|done|done].
      destruct (Z.eqb_spec v' 0) as [->|Hv']; simpl; [|done].
      by rewrite Hv.
    + intros [= <- <-]. split_and!; [|by destruct g|done].
      destruct (Z.eqb_spec (Game.score g) 0); done.
Qed.

(** ** Exceptions *)

(** X13. [compatible] returns a truth value when both codes have two
    characters and raises [ValueError] otherwise, whatever the
    characters are. *)
Theorem compatible_value_error (top bottom : string) :
  (String.length top = 2%nat ∧ String.length bottom = 2%nat →
   ∃ b : bool, Stack.compatible top bottom = Ok b)
  ∧ (¬ (String.length top = 2%nat ∧ String.length bottom = 2%nat) →
     Stack.compatible top bottom = Raise ValueError).
Proof.
  split.
  - intros [Ht Hb]. by apply compatible_two_chars.
  - intros Hn. unfold Stack.compatible.
    destruct top as [|t1 [|t2 [|t3 top]]]; try reflexivity;
      destruct bottom as [|b1 [|b2 [|b3 bottom]]]; try reflexivity.
    exfalso. apply Hn. done.
Qed.

Lemma compatible_raises (top bottom : string) (e : exn) :
  Stack.compatible top bottom = Raise e → e = ValueError.
Proof.
  unfold Stack.compatible.
  destruct (unpack2 top) as [[t1 t2]|e1] eqn:Ht; simpl.
  - destruct (unpack2 bottom) as [[b1 b2]|e2] eqn:Hb; simpl.
    + repeat match goal with |- context [if ?c then _ else _] => destruct c end;
        done.
    + intros [= <-]. revert Hb. unfold unpack2.
      destruct bottom as [|? [|? [|]]]; congruence.
  - intros [= <-]. revert Ht. unfold unpack2.
    destruct top as [|? [|? [|]]]; congruence.
Qed.

Lemma take_below_raises (below : list string) (top : string) (e : exn) :
  Stack.take_below below top = Raise e → e = ValueError.
Proof.
  revert top. induction below as [|c below IH]; intros top; simpl; [done|].
  destruct (Stack.compatible c top) as [[|]|e'] eqn:Hc; simpl.
  - destruct (Stack.take_below below c) as [more|e'] eqn:Hm; simpl; [done|].
    intros [= <-]. by eapply IH.
  - done.
  - intros [= <-]. by eapply compatible_raises.
Qed.

Lemma move_valid_raises (g : Game.t) (i j : nat) (e : exn) :
  (i < length (Game.stacks g))%nat → (j < length (Game.stacks g))%nat →
  Game.move_valid g i j = Raise e → e = ValueError.
Proof.
  intros Hi Hj. unfold Game.move_valid, Game.stack_at.
  apply lookup_lt_is_Some in Hi as [dest Hi].
  apply lookup_lt_is_Some in Hj as [origin Hj].
  rewrite Hi, Hj. case_bool_decide; [done|]. case_bool_decide; [done|]. simpl.
  destruct (Stack.is_move_from_legal origin) eqn:Hfrom; [|done].
  destruct (Stack.which_cards_moving origin) as [run|e'] eqn:Hrun; simpl.
  - assert (Hne : run ≠ []).
    { revert Hrun. unfold Stack.which_cards_moving.
      destruct (Stack.stack origin) as [l|]; [|by intros [= <-]].
      destruct (reverse l) as [|top below]; [done|].
      destruct (Stack.take_below below top); simpl; [|done].
      intros [= <-]. rewrite reverse_cons. intros Hnil.
      by apply app_nil in Hnil as [_ ?]. }
    destruct run as [|bottom run]; [done|]. simpl.
    unfold Stack.is_move_to_legal.
    repeat match goal with |- context [if ?c then _ else _] => destruct c eqn:? end;
      try done.
    assert (∃ top, py_last (Stack.stack dest) = Ok top) as [top ->].
    { destruct (Stack.stack dest) as [l|]; [|by eexists]. simpl.
      destruct l as [|c l] using rev_ind; [by rewrite andb_false_r in *|].
      rewrite last_snoc. by eexists. }
    simpl. destruct (Stack.compatible top bottom) as [b|e'] eqn:Hc; simpl; [done|].
    intros [= <-]. by eapply compatible_raises.
  - intros [= <-]. revert Hrun. unfold Stack.which_cards_moving.
    destruct (Stack.stack origin) as [l|] eqn:Hl; [|done].
    destruct (reverse l) as [|top below] eqn:Hr.
    + apply (f_equal reverse) in Hr. rewrite reverse_involutive in Hr. subst l.
      unfold Stack.is_move_from_legal in Hfrom. rewrite Hl in Hfrom.
      by destruct (Stack.locked origin).
    + destruct (Stack.take_below below top) as [more|e''] eqn:Hm; simpl; [done|].
      intros [= <-]. by eapply take_below_raises.
Qed.

Lemma moves_to_raises (g : Game.t) (i : nat) (js : list nat) (e : exn) :
  (i < length (Game.stacks g))%nat →
  Forall (λ j, (j < length (Game.stacks g))%nat) js →
  Game.moves_to g i js = Raise e → e = ValueError.
Proof.
  intros Hi. induction 1 as [|j js Hj _ IH]; simpl; [done|].
  destruct (Game.move_valid g i j) as [ok|e'] eqn:Hv; simpl.
  - destruct (Game.moves_to g i js) as [more|e'] eqn:Hm; simpl; [intros [=]|].
    intros [= <-]. by apply IH.
  - intros [= <-]. by apply (move_valid_raises g i j).
Qed.

(** X14. [enumerate_moves] raises nothing but [ValueError]: no index is
    out of range and no empty stack is read, whatever the stacks hold. *)
Theorem enumerate_moves_value_error (g : Game.t) (e : exn) :
  Game.enumerate_moves g = Raise e → e = ValueError.
Proof.
  unfold Game.enumerate_moves.
  assert (Hall : Forall (λ j, (j < length (Game.stacks g))%nat)
                   (seq 0 (length (Game.stacks g)))).
  { apply Forall_forall. intros j Hj. apply elem_of_seq in Hj. lia. }
  assert (H : ∀ dests, Forall (λ i, (i < length (Game.stacks g))%nat) dests →
                       Game.moves_over g dests = Raise e → e = ValueError).
  { induction 1 as [|i dests Hi _ IH]; simpl; [done|].
    unfold Game.stack_at. pose proof Hi as Hi'.
    apply lookup_lt_is_Some in Hi' as [dest ->]. simpl.
    destruct (Stack.locked dest).
    - simpl. destruct (Game.moves_over g dests) as [more|e'] eqn:Hm; simpl;
        [intros [=]|].
      intros [= <-]. by apply IH.
    - destruct (Game.moves_to g i _) as [row|e'] eqn:Hrow; simpl.
      + destruct (Game.moves_over g dests) as [more|e''] eqn:Hm; simpl;
          [intros [=]|].
        intros [= <-]. by apply IH.
      + intros [= <-]. by apply (moves_to_raises g i _ _ Hi Hall). }
  by apply H.
Qed.

(** ** Taking cards off a stack *)

(** X15. On a stack of cards [resolve_move_from] raises when the stack is
    locked or empty.  Otherwise, asked for one card, it returns the top
    card and leaves the others; asked for the run, it returns the run of
    [which_cards_moving] and leaves the cards under it; the type, the lock
    and the remembered card of the stack do not change. *)
Theorem resolve_move_from_outcome (s : Stack.t) (l : list string) :
  Stack.stack s = Cards l →
  (Stack.locked s = true ∨ l = [] →
   ∀ m, Stack.resolve_move_from s m = Raise (Failure "Trying to force illegal move"))
  ∧ (Stack.locked s = false →
     ∀ pre c, l = pre ++ [c] →
       Stack.resolve_move_from s 1 = Ok (after_take s pre, Cards [c])
       ∧ ∀ run, Stack.which_cards_moving s = Ok run →
           ∃ pre', l = pre' ++ run
             ∧ Stack.resolve_move_from s 0 = Ok (after_take s pre', Cards run)).
Proof.
  intros Hl. split.
  - intros Hbad m. unfold Stack.resolve_move_from, Stack.is_move_from_legal.
    rewrite Hl. destruct Hbad as [-> | ->]; [done|]. by destruct (Stack.locked s).
  - intros Hlock pre c ->.
    assert (Hfrom : Stack.is_move_from_legal s = true).
    { unfold Stack.is_move_from_legal. rewrite Hlock, Hl. by destruct pre. }
    split.
    + destruct (Stack.resolve_move_from s 1) as [[s' moved]|e] eqn:Hres.
      * destruct (resolve_move_from_split s s' _ 1 moved Hl Hres)
          as (pre' & mv & Hsplit & _ & -> & -> & _ & Hlen).
        specialize (Hlen ltac:(done)). rewrite length_app in Hlen.
        change (length [c]) with 1%nat in Hlen.
        assert (Hone : length mv = 1%nat) by lia.
        destruct mv as [|c' [|]]; try done.
        apply app_inj_tail in Hsplit as [-> ->]. done.
      * revert Hres. unfold Stack.resolve_move_from. by rewrite Hfrom.
    + intros run Hrun.
      assert (∃ r, Stack.resolve_move_from s 0 = Ok r) as [[s' moved] Hres].
      { unfold Stack.resolve_move_from. rewrite Hfrom, Hrun. simpl. by eexists. }
      destruct (resolve_move_from_split s s' _ 0 moved Hl Hres)
        as (pre' & mv & Hsplit & _ & -> & -> & Hmv & _).
      rewrite Hmv in Hrun by done. injection Hrun as ->.
      exists pre'. done.
Qed.

(** ** No card is lost *)

Lemma board_cards_insert (ss : list Stack.t) (i : nat) (old : Stack.t) :
  ss !! i = Some old →
  ∃ others, board_cards ss ≡ₚ cards_held old ++ others
    ∧ ∀ new, board_cards (<[i := new]> ss) ≡ₚ cards_held new ++ others.
Proof.
  intros Hi. exists (board_cards (take i ss ++ drop (S i) ss)).
  assert (Hmid : ∀ x, board_cards (take i ss ++ x :: drop (S i) ss)
                      ≡ₚ cards_held x ++ board_cards (take i ss ++ drop (S i) ss)).
  { intros x. unfold board_cards. rewrite !fmap_app, fmap_cons, !join_app. simpl.
    rewrite !(assoc_L (++)).
    by rewrite (Permutation_app_comm (mjoin (cards_held <$> take i ss)) (cards_held x)). }
  split.
  - rewrite <- (take_drop_middle ss i old Hi) at 1. apply Hmid.
  - intros new. rewrite insert_take_drop by (by eapply lookup_lt_Some). apply Hmid.
Qed.

Lemma cards_held_after_append (dest : Stack.t) (l : list string) :
  cards_held (after_append dest l) = l.
Proof.
  unfold after_append. destruct (Stack.collapses l) eqn:Hc; [|done].
  apply collapses_four_faces in Hc as (c & _ & ->). done.
Qed.

Lemma legal_move_keeps_cards (g : Game.t) (src dst : nat) (ss' : list Stack.t) :
  Forall marker_locked (Game.stacks g) → legal_move g src dst →
  Game.apply_move (Game.stacks g) (src, dst) = Ok ss' →
  board_cards ss' ≡ₚ board_cards (Game.stacks g).
Proof.
  intros Hmark Hlegal Happ.
  destruct (legal_move_applied g src dst Hmark Hlegal) as
    (origin & dest & pre & mv & ld & Hs & Hd & Hl & _ & Hld & _ & _ & Happ').
  assert (Hne : src ≠ dst)
    by (destruct Hlegal as (? & ? & ? & ? & _ & _ & ? & _); done).
  rewrite Happ' in Happ. injection Happ as <-.
  destruct (board_cards_insert (Game.stacks g) src origin Hs) as (R1 & H1 & H1').
  assert (Hd1 : <[src := after_take origin pre]> (Game.stacks g) !! dst = Some dest)
    by (by rewrite list_lookup_insert_ne).
  destruct (board_cards_insert _ dst dest Hd1) as (R2 & H2 & H2').
  rewrite H2', cards_held_after_append, H1.
  specialize (H1' (after_take origin pre)). rewrite H2 in H1'.
  unfold cards_held in H1' at 1 2. simpl in H1'. rewrite Hld in H1'.
  unfold cards_held at 1. rewrite Hl.
  transitivity (mv ++ (ld ++ R2)).
  { by rewrite (Permutation_app_comm ld mv), <- (assoc_L (++)). }
  by rewrite H1', (assoc_L (++)), (Permutation_app_comm mv pre).
Qed.

(** X16. On a game whose collapsed stacks are locked, every child that
    [solve] returns stands for the same cards as the game: the cards
    shown, with four copies of the remembered card for a stack that
    collapsed on a move, are the same up to their order. *)
Theorem solve_keeps_cards (g : Game.t) (children : list Game.t) :
  Forall marker_locked (Game.stacks g) →
  Game.solve g = Ok (Some children) →
  Forall (λ c, board_cards (Game.stacks c) ≡ₚ board_cards (Game.stacks g)) children.
Proof.
  intros Hmark Hsolve.
  destruct (solve_children g children Hsolve) as (moves & Hmoves & Hch).
  apply traverse_Forall2 in Hch.
  apply Forall_forall. intros c Hc.
  apply list_elem_of_lookup_1 in Hc as [k Hk].
  destruct (Forall2_lookup_r _ _ _ _ _ Hch Hk) as ([src dst] & Hmv & Hchild).
  apply child_stacks in Hchild as (Happ & _).
  eapply legal_move_keeps_cards; [done| |exact Happ].
  apply (enumerate_moves_rows g moves Hmoves). by eapply list_elem_of_lookup_2.
Qed.

(** ** Locked stacks and free cells *)

Lemma legal_move_frame (g : Game.t) (src dst : nat) (ss' : list Stack.t) :
  Forall marker_locked (Game.stacks g) → legal_move g src dst →
  Game.apply_move (Game.stacks g) (src, dst) = Ok ss' →
  ∀ k s, Game.stacks g !! k = Some s → Stack.locked s = true → ss' !! k = Some s.
Proof.
  intros Hmark Hlegal Happ k s Hk Hlocked.
  destruct (legal_move_applied g src dst Hmark Hlegal) as
    (origin & dest & pre & mv & ld & Hs & Hd & _ & _ & _ & _ & _ & Happ').
  destruct Hlegal as (origin' & dest' & run & bottom & Hs' & Hd' & _ & Hfree
                      & _ & Hfrom & _).
  rewrite Hs in Hs'. rewrite Hd in Hd'. injection Hs' as <-. injection Hd' as <-.
  rewrite Happ' in Happ. injection Happ as <-.
  assert (k ≠ dst) by (intros ->; congruence).
  assert (k ≠ src).
  { intros ->. rewrite Hs in Hk. injection Hk as <-.
    unfold Stack.is_move_from_legal in Hfrom. by rewrite Hlocked in Hfrom. }
  by rewrite !list_lookup_insert_ne.
Qed.

Lemma legal_move_cells (g : Game.t) (src dst : nat) (ss' : list Stack.t) :
  Forall marker_locked (Game.stacks g) → legal_move g src dst →
  Game.apply_move (Game.stacks g) (src, dst) = Ok ss' →
  Forall2 (λ s s', Stack.card_type s = Stack.card_type s') (Game.stacks g) ss'
  ∧ (Forall cell_bound (Game.stacks g) → Forall cell_bound ss').
Proof.
  intros Hmark Hlegal Happ.
  destruct (legal_move_applied g src dst Hmark Hlegal) as
    (origin & dest & pre & mv & ld & Hs & Hd & Hl & _ & Hld & Hone & _ & Happ').
  destruct Hlegal as (origin' & dest' & run & bottom & Hs' & Hd' & Hne & Hfree
                      & _ & _ & _ & _ & Hto).
  rewrite Hs in Hs'. rewrite Hd in Hd'. injection Hs' as <-. injection Hd' as <-.
  rewrite Happ' in Happ. injection Happ as <-.
  assert (Hta : Stack.card_type (after_append dest (ld ++ mv)) = Stack.card_type dest).
  { unfold after_append. by destruct (Stack.collapses (ld ++ mv)). }
  split.
  - apply Forall2_same_length_lookup_2; [by rewrite !length_insert|].
    intros i x y Hx Hy.
    destruct (decide (i = dst)) as [->|Hid].
    { rewrite list_lookup_insert_eq in Hy
        by (rewrite length_insert; by eapply lookup_lt_Some).
      injection Hy as <-. rewrite Hta. congruence. }
    rewrite list_lookup_insert_ne in Hy by done.
    destruct (decide (i = src)) as [->|His].
    { rewrite list_lookup_insert_eq in Hy by (by eapply lookup_lt_Some).
      injection Hy as <-. simpl. congruence. }
    rewrite list_lookup_insert_ne in Hy by done. congruence.
  - intros Hcells. rewrite Forall_forall in Hcells.
    apply Forall_insert; [apply Forall_insert; [by apply Forall_forall|]|].
    + intros Hcell l. simpl. intros [= <-].
      assert (Ho : cell_bound origin)
        by (by eapply Hcells, list_elem_of_lookup_2).
      specialize (Ho Hcell _ Hl). rewrite length_app in Ho. lia.
    + unfold cell_bound. rewrite Hta. intros Hcell l.
      unfold after_append. destruct (Stack.collapses (ld ++ mv)); simpl; [done|].
      intros [= <-]. rewrite length_app, (Hone Hcell).
      unfold Stack.is_move_to_legal in Hto. rewrite Hfree, Hld in Hto.
      rewrite bool_decide_eq_true_2 in Hto by done.
      destruct ld as [|c ld]; [simpl; lia|]. simpl in Hto. done.
Qed.

(** X17. A locked stack is out of the game: in every child that [solve]
    returns, each stack that is locked in the game stands unchanged at the
    same index. *)
Theorem solve_keeps_locked (g : Game.t) (children : list Game.t) :
  Forall marker_locked (Game.stacks g) →
  Game.solve g = Ok (Some children) →
  Forall (λ c, ∀ k s, Game.stacks g !! k = Some s → Stack.locked s = true →
               Game.stacks c !! k = Some s) children.
Proof.
  intros Hmark Hsolve.
  destruct (solve_children g children Hsolve) as (moves & Hmoves & Hch).
  apply traverse_Forall2 in Hch.
  apply Forall_forall. intros c Hc.
  apply list_elem_of_lookup_1 in Hc as [k Hk].
  destruct (Forall2_lookup_r _ _ _ _ _ Hch Hk) as ([src dst] & Hmv & Hchild).
  apply child_stacks in Hchild as (Happ & _).
  eapply legal_move_frame; [done| |exact Happ].
  apply (enumerate_moves_rows g moves Hmoves). by eapply list_elem_of_lookup_2.
Qed.

(** X18. In every child that [solve] returns each stack has the type it
    had in the game, and when no free cell of the game holds more than one
    card, no free cell of the child does. *)
Theorem solve_keeps_free_cells (g : Game.t) (children : list Game.t) :
  Forall marker_locked (Game.stacks g) →
  Game.solve g = Ok (Some children) →
  Forall (λ c,
            Forall2 (λ s s', Stack.card_type s = Stack.card_type s')
              (Game.stacks g) (Game.stacks c)
            ∧ (Forall cell_bound (Game.stacks g) →
               Forall cell_bound (Game.stacks c))) children.
Proof.
  intros Hmark Hsolve.
  destruct (solve_children g children Hsolve) as (moves & Hmoves & Hch).
  apply traverse_Forall2 in Hch.
  apply Forall_forall. intros c Hc.
  apply list_elem_of_lookup_1 in Hc as [k Hk].
  destruct (Forall2_lookup_r _ _ _ _ _ Hch Hk) as ([src dst] & Hmv & Hchild).
  apply child_stacks in Hchild as (Happ & _).
  eapply legal_move_cells; [done| |exact Happ].
  apply (enumerate_moves_rows g moves Hmoves). by eapply list_elem_of_lookup_2.
Qed.

(** ** The round trip through the hash *)

(** X19. The hash of a game without a collapsed stack, whose cards are
    card codes, decodes: [exact_setup] returns a game whose stacks are, in
    some order, the stacks of the game, unlocked and with nothing
    remembered, and whose hash is the hash decoded. *)
Theorem hash_round_trip (g0 g : Game.t) :
  Forall open_stack (Game.stacks g) →
  ∃ g', Game.exact_setup g0 (Game.hash g) = Ok g'
    ∧ Game.stacks g' ≡ₚ decoded <$> Game.stacks g
    ∧ Game.hash g' = Game.hash g.
Proof. apply exact_setup_hash_open. Qed.

(** ** The further properties at work *)

Lemma deck_card_codes (l : list string) :
  Forall valid_card l → Forall card_code l.
Proof. intros H. eapply Forall_impl; [exact H|]. exact valid_card_code. Qed.

Lemma sorted_columns_codes : Forall (Forall card_code) sorted_columns.
Proof.
  assert (H : Forall (Forall valid_card) sorted_columns).
  { apply (bool_decide_unpack _). vm_compute. reflexivity. }
  eapply Forall_impl; [exact H|]. exact deck_card_codes.
Qed.

Lemma two_stacks_open : Forall open_stack two_stacks.
Proof.
  assert (H : Forall (λ s, ∃ l, Stack.stack s = Cards l ∧ Forall valid_card l)
                two_stacks).
  { repeat constructor; eexists; (split; [reflexivity|]);
      apply (bool_decide_unpack _); vm_compute; reflexivity. }
  eapply Forall_impl; [exact H|].
  intros s (l & Hl & Hv). exists l. split; [exact Hl|].
  by apply deck_card_codes.
Qed.

Lemma two_stacks_hashable : Forall hashable two_stacks.
Proof. eapply Forall_impl; [exact two_stacks_open|]. intros s Hs. by left. Qed.

Lemma one_move_left_locked : Forall marker_locked (Game.stacks one_move_left).
Proof. repeat constructor; intros H; first [discriminate H | reflexivity]. Qed.

Lemma solve_outcomes_witness :
  ∃ children, Game.solve before_collapse = Ok (Some children)
    ∧ Forall2 (child_of before_collapse) [(1%nat, 0%nat)] children.
Proof.
  destruct (solve_outcomes before_collapse before_collapse_wf)
    as (moves & Hmoves & _ & _ & _ & Hsome).
  vm_compute in Hmoves. injection Hmoves as <-.
  apply Hsome; [vm_compute; discriminate | reflexivity | discriminate].
Defined.

Lemma play_game_offsets_witness :
  ∃ pre mv,
    ["7R"; "0R"; "9B"] = pre ++ mv ∧ mv ≠ []
    ∧ (Stack.card_type (pile []) = Stack.freecell_kind → length mv = 1%nat)
    ∧ (Stack.card_type (pile []) ≠ Stack.freecell_kind →
       Stack.which_cards_moving (pile ["7R"; "0R"; "9B"]) = Ok mv)
    ∧ Game.take_cards (Game.stacks run_on_a_card) 0 1
      = Ok (<[0%nat := after_take (pile ["7R"; "0R"; "9B"]) pre]>
              (Game.stacks run_on_a_card), Cards mv)
    ∧ [(0%nat, -1, 1%nat, 0)] !! 0%nat
      = Some (0%nat, Z.of_nat (length pre) - Z.of_nat (length mv),
              1%nat, Z.max 0 (Z.of_nat (length (@nil string)) - 1)).
Proof.
  apply (play_game_offsets run_on_a_card
           (Game.set_stacks run_on_a_card [pile ["7R"]; pile ["0R"; "9B"]])
           [(0%nat, 1%nat)] [(0%nat, -1, 1%nat, 0)] 0 0 1
           (Game.stacks run_on_a_card) (pile ["7R"; "0R"; "9B"]) (pile []));
    try reflexivity. discriminate.
Defined.

Lemma global_solve_sound_witness :
  ∃ final,
    apply_moves (Game.stacks one_move_left) (move_of <$> [(8%nat, -1, 7%nat, 2)])
    = Ok final
    ∧ Game.is_complete (Game.set_stacks one_move_left final) = true.
Proof.
  apply (global_solve_sound 5 one_move_left (-1)); [reflexivity|reflexivity|discriminate].
Defined.

Lemma global_solve_halts_witness :
  ∃ outcome, Game.global_solve 6 shallow_collapse (-1) = Some outcome.
Proof. apply global_solve_halts. vm_compute. lia. Defined.

Lemma hash_same_board_witness :
  ∃ ss, ss ≡ₚ reverse two_stacks ∧ Forall2 same_state two_stacks ss.
Proof.
  apply (hash_same_board (Game.mk two_stacks 2 0 100 [] 0)
           (Game.mk (reverse two_stacks) 2 0 100 [] 0)).
  - exact two_stacks_hashable.
  - apply Forall_reverse. exact two_stacks_hashable.
  - reflexivity.
Defined.

Lemma screen_to_game_witness :
  Game.exact_setup (Game.init 9 1 100)
    (Gui.computer_hash sorted_columns Gui.read_freecells)
  = Ok (Game.set_stacks (Game.init 9 1 100)
          (map pile sorted_columns ++ map cell Gui.read_freecells)).
Proof. apply screen_to_game. exact sorted_columns_codes. Defined.

Lemma deal_cards_fresh_witness :
  ∃ g, Game.deal_cards (Game.init 9 1 100) Game.deck = Ok g
    ∧ total_cards (Game.stacks g) = 36.
Proof.
  destruct (deal_cards_fresh 9 1 100 Game.deck) as (g & Hg & _ & _ & Htot & _);
    [reflexivity|].
  exists g. split; [exact Hg|exact Htot].
Defined.

Lemma solve_screen_sound_witness :
  ∃ final,
    apply_moves (map pile sorted_columns ++ [cell 0])
      (move_of <$> [(4%nat, -4, 8%nat, 0); (5%nat, -4, 4%nat, 0);
                    (6%nat, -4, 5%nat, 0); (7%nat, -4, 6%nat, 0)])
    = Ok final
    ∧ length (filter (λ s, Stack.is_complete s = true) final) = 8%nat.
Proof.
  apply (solve_screen_sound 30 sorted_columns);
    [exact sorted_columns_codes | vm_compute; reflexivity | discriminate].
Defined.

Lemma which_cards_moving_run_witness :
  ∃ pre, ["9B"; "7R"; "0R"; "9B"] = pre ++ ["0R"; "9B"] ∧ ["0R"; "9B"] ≠ []
    ∧ chain ["0R"; "9B"]
    ∧ ∀ under first, last pre = Some under → head ["0R"; "9B"] = Some first →
        Stack.compatible under first = Ok false.
Proof. apply (which_cards_moving_run run_of_two); reflexivity. Defined.

Lemma get_score_stored_witness :
  Game.get_score (Game.set_score before_collapse 5) false
  = Ok (Game.set_score before_collapse 5, 5).
Proof.
  apply (get_score_stored before_collapse (Game.set_score before_collapse 5) true 5).
  reflexivity.
Defined.

Lemma enumerate_moves_value_error_witness :
  Game.enumerate_moves with_locked_cell = Raise ValueError.
Proof.
  destruct (Game.enumerate_moves with_locked_cell) as [moves|e] eqn:He.
  - vm_compute in He. discriminate He.
  - f_equal. exact (enumerate_moves_value_error with_locked_cell e He).
Defined.

Lemma resolve_move_from_outcome_witness :
  Stack.resolve_move_from three_faces 1
  = Ok (after_take three_faces ["HH"; "HH"], Cards ["HH"]).
Proof.
  destruct (resolve_move_from_outcome three_faces ["HH"; "HH"; "HH"] eq_refl)
    as [_ Hopen].
  apply (Hopen eq_refl ["HH"; "HH"] "HH" eq_refl).
Defined.

Lemma solve_keeps_cards_witness :
  Forall (λ c, board_cards (Game.stacks c)
               ≡ₚ board_cards (Game.stacks before_collapse))
    [collapsed_game].
Proof.
  apply (solve_keeps_cards before_collapse [collapsed_game]);
    [repeat constructor; intros [=] | reflexivity].
Defined.

Lemma solve_keeps_locked_witness :
  ∃ children, Game.solve one_move_left = Ok (Some children)
    ∧ Forall (λ c, ∀ k s, Game.stacks one_move_left !! k = Some s →
                   Stack.locked s = true → Game.stacks c !! k = Some s)
        children.
Proof.
  eexists. split; [vm_compute; reflexivity|].
  apply (solve_keeps_locked one_move_left);
    [exact one_move_left_locked | vm_compute; reflexivity].
Defined.

Lemma solve_keeps_free_cells_witness :
  Forall (λ c,
            Forall2 (λ s s', Stack.card_type s = Stack.card_type s')
              (Game.stacks before_collapse) (Game.stacks c)
            ∧ (Forall cell_bound (Game.stacks before_collapse) →
               Forall cell_bound (Game.stacks c)))
    [collapsed_game].
Proof.
  apply (solve_keeps_free_cells before_collapse [collapsed_game]);
    [repeat constructor; intros [=] | reflexivity].
Defined.

Lemma hash_round_trip_witness :
  ∃ g', Game.exact_setup (Game.init 2 0 100)
          (Game.hash (Game.mk two_stacks 2 0 100 [] 0)) = Ok g'
    ∧ Game.stacks g' ≡ₚ decoded <$> two_stacks
    ∧ Game.hash g' = Game.hash (Game.mk two_stacks 2 0 100 [] 0).
Proof.
  apply (hash_round_trip (Game.init 2 0 100) (Game.mk two_stacks 2 0 100 [] 0)).
  exact two_stacks_open.
Defined.
